(** * RethinkDB [containers/uuid.cc]: a shallow embedding and its properties

    The file follows [src/containers/uuid.cc] top to bottom: the value type
    and its predicates, the thread-local counter, the digest step, the
    generator, the canonical text encoder and the decoder.

    Conventions.
    - A [uint8_t] is a [Z] in [0, 256); narrowing stores write [mod 256] out.
    - A [uint8_t\[kStaticSize\]] buffer is a [list Z]; the lemmas carry the
      length as a hypothesis where it matters.
    - [std::string] is [string]; [push_back] appends at the end.
    - Thread-local variables are an explicit record threaded through calls.
    - [rassert]/[guarantee] failures and C++ exceptions are outcomes of the
      [result] type, so that "does not crash" and "does not throw" are
      statements one can prove. *)

From Stdlib Require Import ZArith String Ascii List Lia Bool.
From stdpp Require Import base tactics list.
Import ListNotations.

Local Open Scope Z_scope.

(** ** Outcomes of a call *)

Inductive result (A : Type) : Type :=
| Ok (a : A)              (* normal return *)
| Throw (what : string)   (* a C++ exception leaves the function *)
| Crash.                  (* a failed [rassert] or [guarantee] *)

Arguments Ok {A} a.
Arguments Throw {A} what.
Arguments Crash {A}.

Definition bind {A B : Type} (m : result A) (k : A -> result B) : result B :=
  match m with
  | Ok a => k a
  | Throw e => Throw e
  | Crash => Crash
  end.

Notation "x <- m ;; k" := (bind m (fun x => k))
  (at level 100, m at next level, right associativity).
Notation "m ;;; k" := (bind m (fun _ => k))
  (at level 100, right associativity).

(** Modelled from the spec: errors.hpp is not among the sources.
    [guarantee(c)] is the fatal check of the generation path: nothing happens
    when the condition holds, the process is terminated when it does not. *)
Definition guarantee (c : bool) : result unit := if c then Ok tt else Crash.

(** Modelled from the spec: errors.hpp is not among the sources.
    [rassert(c)] is the assertion of debug builds; it is given the behaviour
    of [guarantee], so that a proof of [Ok] covers debug builds as well. *)
Definition rassert (c : bool) : result unit := if c then Ok tt else Crash.

(** ** Bytes, characters and C library functions *)

Definition is_uint8 (b : Z) : Prop := 0 <= b < 256.

(** Narrowing conversion to [uint8_t]. *)
Definition to_uint8 (x : Z) : Z := x mod 256.

(** A plain [char] read as an [int]: [char] is signed on the Linux targets
    this file is written for (it opens /dev/urandom and uses [__thread]). *)
Definition char_to_int (c : ascii) : Z :=
  let n := Z.of_N (N_of_ascii c) in
  if 128 <=? n then n - 256 else n.

(** The byte a [char] occupies in memory. *)
Definition char_to_uint8 (c : ascii) : Z := Z.of_N (N_of_ascii c).

(** [isdigit] and [tolower] of <ctype.h>, in the C locale; outside the
    digits and the uppercase letters (negative arguments included) the
    first is false and the second the identity. *)
Definition isdigit (ch : Z) : bool := (48 <=? ch) && (ch <=? 57).
Definition tolower (ch : Z) : Z :=
  if (65 <=? ch) && (ch <=? 90) then ch + 32 else ch.

(** [s\[n\]] for a [std::string] or a string literal; the terminating NUL is
    what one reads at [n = size]. *)
Definition string_at (s : string) (n : nat) : ascii :=
  match String.get n s with
  | Some c => c
  | None => Ascii.zero
  end.

(** [s.push_back(c)]. *)
Definition push_back (s : string) (c : ascii) : string :=
  String.append s (String c EmptyString).

(** The bytes of a string literal in memory, terminating NUL included. *)
Definition c_str (s : string) : list Z :=
  map char_to_uint8 (list_ascii_of_string s) ++ [0].

Definition strlen (s : string) : nat := String.length s.

(** What the conversion [%s] prints of [s.c_str()]: the characters before
    the first NUL. *)
Fixpoint printf_s (s : string) : string :=
  match s with
  | EmptyString => EmptyString
  | String c s' =>
      if Ascii.eqb c Ascii.zero then EmptyString else String c (printf_s s')
  end.

(** [memcpy(dst, src, n)]: the first [n] bytes of [dst] are replaced by the
    first [n] bytes of [src]. *)
Definition memcpy (dst src : list Z) (n : nat) : list Z :=
  take n src ++ drop n dst.

(** [memset(dst, c, n)]. *)
Definition memset (dst : list Z) (c : Z) (n : nat) : list Z :=
  replicate n (to_uint8 c) ++ drop n dst.

(** [memcmp(x, y, n)]: the sign of the first difference among the first [n]
    bytes, compared as unsigned bytes. *)
Fixpoint memcmp (x y : list Z) (n : nat) : Z :=
  match n with
  | O => 0
  | S n' =>
      match x, y with
      | a :: x', b :: y' =>
          if a <? b then -1 else if b <? a then 1 else memcmp x' y' n'
      | _, _ => 0
      end
  end.

(** ** The value type *)

(** Modelled from the spec: containers/uuid.hpp is not among the sources.
    [kStaticSize] is the identifier's byte length, settled also by
    [CT_ASSERT(uuid_t::kStaticSize == 16)] in [uuid_to_str]. *)
Definition kStaticSize : nat := 16.

(** Modelled from the spec: containers/uuid.hpp is not among the sources.
    [kStringSize] is the fixed length of the canonical form, 32 digits and
    4 hyphens, which the decoder's size test writes [kStaticSize * 2 + 4]. *)
Definition kStringSize : nat := 2 * kStaticSize + 4.

(** Modelled from the spec: containers/uuid.hpp is not among the sources.
    [uuid_t::static_size()] is the length of the buffer. *)
Definition static_size : nat := kStaticSize.

(** Modelled from the spec: containers/uuid.hpp is not among the sources.
    [uuid_t] is a sixteen-byte value, [uint8_t data_\[kStaticSize\]]; the
    class is identified with its buffer. *)
Abbreviation uuid_t := (list Z) (only parsing).

Definition uuid_wf (u : uuid_t) : Prop :=
  length u = kStaticSize /\ Forall is_uint8 u.

Definition magic_unset_uuid : string := "UNSET_UUID_____".

(** [uuid_t::uuid_t()]. The object's storage before the constructor body
    runs is indeterminate; the [memcpy] overwrites all of it. *)
Definition uuid_t_new : result uuid_t :=
  rassert (Nat.eqb (strlen magic_unset_uuid) (kStaticSize - 1)) ;;;
  Ok (memcpy (replicate kStaticSize 0) (c_str magic_unset_uuid) kStaticSize).

Definition is_unset (u : uuid_t) : bool :=
  memcmp u (c_str magic_unset_uuid) kStaticSize =? 0.

Fixpoint is_nil_from (fuel i : nat) (data_ : list Z) : bool :=
  match fuel with
  | O => true
  | S fuel' =>
      if negb (data_ !!! i =? 0) then false
      else is_nil_from fuel' (S i) data_
  end.

(** [uuid_t::is_nil]: the loop runs [i] from [0] up to [kStaticSize];
    [fuel] above is [kStaticSize - i]. *)
Definition is_nil (u : uuid_t) : bool := is_nil_from kStaticSize 0 u.

(** [operator==] and [operator<]. *)
Definition uuid_eq (x y : uuid_t) : bool := memcmp x y static_size =? 0.
Definition uuid_lt (x y : uuid_t) : bool := memcmp x y static_size <? 0.

(** [nil_uuid]. *)
Definition nil_uuid : result uuid_t :=
  ret <- uuid_t_new ;;
  Ok (memset ret 0 static_size).

(** ** The thread-local counter *)

(** [static __thread bool next_uuid_initialized] and
    [static __thread uint8_t next_uuid\[uuid_t::kStaticSize\]]. *)
Record thread_locals : Type := mk_thread_locals {
  next_uuid_initialized : bool;
  next_uuid : list Z
}.

(** Static storage is zero-initialised when a thread starts. *)
Definition thread_start : thread_locals :=
  mk_thread_locals false (replicate kStaticSize 0).

(** The increment loop of [get_and_increment_uuid]:
    [for (size_t i = static_size(); carry && i > 0; --i)]. *)
Fixpoint increment_from (i : nat) (carry : bool) (next : list Z) : list Z :=
  match i with
  | O => next
  | S i' =>
      if carry then
        let next' := <[i' := to_uint8 (next !!! i' + 1)]> next in
        increment_from i' (next' !!! i' =? 0) next'
      else next
  end.

Definition get_and_increment_uuid (tl : thread_locals)
  : result (uuid_t * thread_locals) :=
  result <- uuid_t_new ;;
  let result := memcpy result (next_uuid tl) static_size in
  let next := increment_from static_size true (next_uuid tl) in
  Ok (result, mk_thread_locals (next_uuid_initialized tl) next).

(** ** SHA-1 (external: OpenSSL's <openssl/sha.h>)

    The digest is not code of this repository. It is modelled after
    FIPS 180-4 so that the generator can be run; the properties of the
    generator below use only that a digest has [SHA_DIGEST_LENGTH] bytes. *)
Module SHA1.

Definition SHA_DIGEST_LENGTH : nat := 20.

Definition w32 (x : Z) : Z := x mod 2 ^ 32.
Definition add32 (x y : Z) : Z := w32 (x + y).
Definition rotl (n x : Z) : Z :=
  w32 (Z.lor (Z.shiftl x n) (Z.shiftr x (32 - n))).
Definition not32 (x : Z) : Z := Z.lxor x 4294967295.

Definition f (t : nat) (b c d : Z) : Z :=
  if (t <? 20)%nat then Z.lor (Z.land b c) (Z.land (not32 b) d)
  else if (t <? 40)%nat then Z.lxor (Z.lxor b c) d
  else if (t <? 60)%nat then
    Z.lor (Z.lor (Z.land b c) (Z.land b d)) (Z.land c d)
  else Z.lxor (Z.lxor b c) d.

Definition K (t : nat) : Z :=
  if (t <? 20)%nat then 1518500249
  else if (t <? 40)%nat then 1859775393
  else if (t <? 60)%nat then 2400959708
  else 3395469782.

(** Big-endian bytes of an integer, [n] of them. *)
Fixpoint be_bytes (n : nat) (x : Z) : list Z :=
  match n with
  | O => []
  | S n' => (Z.shiftr x (8 * Z.of_nat n')) mod 256 :: be_bytes n' x
  end.

Definition be_word (bs : list Z) : Z :=
  fold_left (fun acc b => acc * 256 + b) bs 0.

Definition pad (msg : list Z) : list Z :=
  let len := length msg in
  msg ++ [128] ++ replicate ((119 - len mod 64) mod 64)%nat 0
      ++ be_bytes 8 (8 * Z.of_nat len).

Fixpoint chunks (fuel n : nat) (l : list Z) : list (list Z) :=
  match fuel with
  | O => []
  | S fuel' =>
      match l with
      | [] => []
      | _ => take n l :: chunks fuel' n (drop n l)
      end
  end.

(** The message schedule, most recent word first. *)
Fixpoint schedule (n : nat) (w : list Z) : list Z :=
  match n with
  | O => w
  | S n' =>
      let x := Z.lxor (Z.lxor (w !!! 2%nat) (w !!! 7%nat))
                      (Z.lxor (w !!! 13%nat) (w !!! 15%nat)) in
      schedule n' (rotl 1 x :: w)
  end.

Definition state : Type := (Z * Z * Z * Z * Z)%type.

Definition round (s : state) (tw : nat * Z) : state :=
  let '(a, b, c, d, e) := s in
  let '(t, w) := tw in
  let temp := add32 (add32 (add32 (add32 (rotl 5 a) (f t b c d)) e) (K t)) w in
  (temp, a, rotl 30 b, c, d).

Definition compress (h : state) (block : list Z) : state :=
  let w0 := map be_word (chunks 16 4 block) in
  let w := rev (schedule 64 (rev w0)) in
  let '(a, b, c, d, e) := fold_left round (zip (seq 0 80) w) h in
  let '(h0, h1, h2, h3, h4) := h in
  (add32 h0 a, add32 h1 b, add32 h2 c, add32 h3 d, add32 h4 e).

Definition init : state :=
  (1732584193, 4023233417, 2562383102, 271733878, 3285377520).

Definition sha1 (msg : list Z) : list Z :=
  let p := pad msg in
  let '(h0, h1, h2, h3, h4) :=
    fold_left compress (chunks (length p) 64 p) init in
  be_bytes 4 h0 ++ be_bytes 4 h1 ++ be_bytes 4 h2
    ++ be_bytes 4 h3 ++ be_bytes 4 h4.

(** The streaming interface: a context accumulates the bytes fed to it.
    Each call returns 1, as OpenSSL's do. *)
Definition SHA_CTX : Type := list Z.
Definition SHA1_Init : Z * SHA_CTX := (1, []).
Definition SHA1_Update (ctx : SHA_CTX) (data : list Z) (len : nat)
  : Z * SHA_CTX := (1, ctx ++ take len data).
Definition SHA1_Final (ctx : SHA_CTX) : Z * list Z := (1, sha1 ctx).

End SHA1.

(** ** Digest and generation *)

(** [hash_uuid]: SHA-1 of the sixteen bytes, two fields overwritten, and the
    first sixteen bytes of the digest copied back. *)
Definition hash_uuid (uuid : uuid_t) : result uuid_t :=
  let '(r, ctx) := SHA1.SHA1_Init in
  guarantee (r =? 1) ;;;
  let '(r, ctx) := SHA1.SHA1_Update ctx uuid static_size in
  guarantee (r =? 1) ;;;
  let '(r, output_buffer) := SHA1.SHA1_Final ctx in
  guarantee (r =? 1) ;;;
  let output_buffer :=
    <[6%nat := to_uint8 (Z.lor (Z.land (output_buffer !!! 6%nat) 15) 64)]>
      output_buffer in
  let output_buffer :=
    <[8%nat := to_uint8 (Z.lor (Z.land (output_buffer !!! 8%nat) 63) 128)]>
      output_buffer in
  Ok (memcpy uuid output_buffer static_size).

(** What /dev/urandom does when asked: [open] fails, [read] fails, or
    [read] delivers some bytes (possibly fewer than requested). *)
Inductive dev_urandom : Type :=
| OpenFails
| ReadFails
| Delivers (bytes : list Z).

Definition open_urandom (dev : dev_urandom) : Z :=
  match dev with
  | OpenFails => -1
  | _ => 3
  end.

Definition read_urandom (dev : dev_urandom) (buf : list Z) (count : nat)
  : Z * list Z :=
  match dev with
  | Delivers bytes =>
      let got := take count bytes in
      (Z.of_nat (length got), memcpy buf got (length got))
  | _ => (-1, buf)
  end.

(** [initialize_dev_random_uuid]; the closing [close(random_fd)] has no
    effect on the state modelled here. *)
Definition initialize_dev_random_uuid (dev : dev_urandom) (tl : thread_locals)
  : result thread_locals :=
  let random_fd := open_urandom dev in
  guarantee (negb (random_fd =? -1)) ;;;
  let '(readres, next) := read_urandom dev (next_uuid tl) static_size in
  guarantee (readres =? Z.of_nat static_size) ;;;
  Ok (mk_thread_locals (next_uuid_initialized tl) next).

Definition generate_uuid (dev : dev_urandom) (tl : thread_locals)
  : result (uuid_t * thread_locals) :=
  tl <- (if negb (next_uuid_initialized tl) then
           tl <- initialize_dev_random_uuid dev tl ;;
           Ok (mk_thread_locals true (next_uuid tl))
         else Ok tl) ;;
  p <- get_and_increment_uuid tl ;;
  let '(result, tl) := p in
  result <- hash_uuid result ;;
  Ok (result, tl).

(** ** Encoding *)

Definition push_hex (s : string) (byte : Z) : string :=
  let buf := "0123456789abcdef"%string in
  let s := push_back s (string_at buf (Z.to_nat (Z.shiftr byte 4))) in
  push_back s (string_at buf (Z.to_nat (Z.land byte 15))).

(** One [for (; i < bound; ++i) push_hex(&ret, data\[i\]);] of [uuid_to_str];
    [fuel] is [bound - i]. *)
Fixpoint push_hex_from (fuel i : nat) (data : list Z) (ret : string) : string :=
  match fuel with
  | O => ret
  | S fuel' => push_hex_from fuel' (S i) data (push_hex ret (data !!! i))
  end.

Definition push_hex_range (i bound : nat) (data : list Z) (ret : string)
  : string := push_hex_from (bound - i) i data ret.

Definition uuid_to_str (id : uuid_t) : string :=
  let data := id in
  let ret := EmptyString in
  let ret := push_hex_range 0 4 data ret in
  let ret := push_back ret "-" in
  let ret := push_hex_range 4 6 data ret in
  let ret := push_back ret "-" in
  let ret := push_hex_range 6 8 data ret in
  let ret := push_back ret "-" in
  let ret := push_hex_range 8 10 data ret in
  let ret := push_back ret "-" in
  let ret := push_hex_range 10 kStaticSize data ret in
  ret.

(** [debug_print]: [appendf("%s", uuid_to_str(id).c_str())] appends to the
    buffer's text what [%s] prints of the encoding. *)
Definition debug_print (buf : string) (id : uuid_t) : string :=
  String.append buf (printf_s (uuid_to_str id)).

(** ** Decoding *)

(** [from_hexdigit(int ch, int *out)]: [Some] is [true] with [*out] set. *)
Definition from_hexdigit (ch : Z) : option Z :=
  if isdigit ch then Some (ch - 48)
  else
    let ch := tolower ch in
    if (97 <=? ch) && (ch <=? 102) then Some (10 + (ch - 97))
    else None.

(** The labels [case 4: case 6: case 8: case 10:] of the switch. *)
Definition separator_case (i : nat) : bool :=
  (i =? 4)%nat || (i =? 6)%nat || (i =? 8)%nat || (i =? 10)%nat.

(** The [for] loop of [str_to_uuid] from index [i] on, with [fuel] the
    number [kStaticSize - i] of iterations left; when [i] reaches
    [kStaticSize] the loop is left, the closing [rassert(j == kStringSize)]
    runs and [true] is returned. Every [return false] hands back the buffer
    as written so far. *)
Fixpoint str_to_uuid_from (fuel i j : nat) (str : string) (data : list Z)
  : result (bool * list Z) :=
  match fuel with
  | O => rassert (j =? kStringSize)%nat ;;; Ok (true, data)
  | S fuel' =>
      sep <- (if separator_case i then
                rassert (j <? kStringSize)%nat ;;;
                if negb (Ascii.eqb (string_at str j) "-") then Ok None
                else Ok (Some (S j))
              else Ok (Some j)) ;;
      match sep with
      | None => Ok (false, data)
      | Some j =>
          rassert (j <? kStringSize)%nat ;;;
          match from_hexdigit (char_to_int (string_at str j)) with
          | None => Ok (false, data)
          | Some high =>
              let j := S j in
              rassert (j <? kStringSize)%nat ;;;
              match from_hexdigit (char_to_int (string_at str j)) with
              | None => Ok (false, data)
              | Some low =>
                  let j := S j in
                  let data :=
                    <[i := to_uint8 (Z.lor (Z.shiftl high 4) low)]> data in
                  str_to_uuid_from fuel' (S i) j str data
              end
          end
      end
  end.

(** [bool str_to_uuid(const std::string &str, uuid_t *uuid)]: the result is
    the returned flag together with the contents of [*uuid] afterwards. *)
Definition str_to_uuid (str : string) (uuid : uuid_t) : result (bool * uuid_t) :=
  if negb (String.length str =? kStaticSize * 2 + 4)%nat then Ok (false, uuid)
  else str_to_uuid_from kStaticSize 0 0 str uuid.

(** [uuid_t str_to_uuid(const std::string &uuid)], the throwing overload. *)
Definition str_to_uuid_or_throw (uuid : string) : result uuid_t :=
  ret <- uuid_t_new ;;
  p <- str_to_uuid uuid ret ;;
  let '(ok, ret) := p in
  if ok then Ok ret else Throw "invalid uuid".

(** [is_uuid]: [catch (...)] turns any exception into [false]. *)
Definition is_uuid (str : string) : result bool :=
  match str_to_uuid_or_throw str with
  | Ok _ => Ok true
  | Throw _ => Ok false
  | Crash => Crash
  end.

(** * Definitions used to state the properties *)

(** Boolean equality on [option Z], for checks run over all characters. *)
Definition option_Z_eqb (x y : option Z) : bool :=
  match x, y with
  | Some a, Some b => a =? b
  | None, None => true
  | _, _ => false
  end.

(** The two characters [push_hex] appends for a byte. *)
Definition hex_char (n : Z) : ascii :=
  string_at "0123456789abcdef" (Z.to_nat n).
Definition hex_hi (byte : Z) : ascii := hex_char (Z.shiftr byte 4).
Definition hex_lo (byte : Z) : ascii := hex_char (Z.land byte 15).

(** The spec's alphabet: [0-9a-fA-F], and its lowercase part. *)
Definition is_hex_digit_char (c : ascii) : bool :=
  let n := nat_of_ascii c in
  ((48 <=? n) && (n <=? 57) || (97 <=? n) && (n <=? 102)
   || (65 <=? n) && (n <=? 70))%nat.

Definition is_lower_hex_char (c : ascii) : bool :=
  let n := nat_of_ascii c in
  ((48 <=? n) && (n <=? 57) || (97 <=? n) && (n <=? 102))%nat.

Definition is_upper_char (c : ascii) : bool :=
  let n := nat_of_ascii c in ((65 <=? n) && (n <=? 90))%nat.

(** Lowercase normalisation of a character and of a string. *)
Definition ascii_lower (c : ascii) : ascii :=
  if is_upper_char c then ascii_of_nat (nat_of_ascii c + 32) else c.

Fixpoint string_lower (s : string) : string :=
  match s with
  | EmptyString => EmptyString
  | String c s' => String (ascii_lower c) (string_lower s')
  end.

Definition is_Some_b {A : Type} (o : option A) : bool :=
  match o with Some _ => true | None => false end.

(** Iteration [i] of the loop of [str_to_uuid] starts reading at
    [start_pos i]: two characters per byte decoded so far and one per
    separator label already passed. The two digits of byte [i] sit at
    [digit_pos i] and the position after it. *)
Definition separators_below (i : nat) : nat :=
  ((if 4 <? i then 1 else 0) + (if 6 <? i then 1 else 0)
   + (if 8 <? i then 1 else 0) + (if 10 <? i then 1 else 0))%nat.

Definition start_pos (i : nat) : nat := (2 * i + separators_below i)%nat.

Definition digit_pos (i : nat) : nat :=
  if separator_case i then S (start_pos i) else start_pos i.

(** What iteration [i] stores in [data\[i\]]; [None] when it returns
    [false] instead. *)
Definition decode_byte (str : string) (i : nat) : option Z :=
  if separator_case i && negb (Ascii.eqb (string_at str (start_pos i)) "-")
  then None
  else
    match from_hexdigit (char_to_int (string_at str (digit_pos i))) with
    | None => None
    | Some high =>
        match from_hexdigit (char_to_int (string_at str (S (digit_pos i)))) with
        | None => None
        | Some low => Some (to_uint8 (Z.lor (Z.shiftl high 4) low))
        end
    end.

(** The loop with its bookkeeping of [j] and its assertions taken out. *)
Fixpoint decode_from (fuel i : nat) (str : string) (data : list Z)
  : bool * list Z :=
  match fuel with
  | O => (true, data)
  | S fuel' =>
      match decode_byte str i with
      | None => (false, data)
      | Some b => decode_from fuel' (S i) str (<[i := b]> data)
      end
  end.

(** Two lowercase hexadecimal digits per byte, in order. *)
Fixpoint hex_of_bytes (l : list Z) : string :=
  match l with
  | [] => EmptyString
  | b :: l' => String (hex_hi b) (String (hex_lo b) (hex_of_bytes l'))
  end.

(** The 8-4-4-4-12 grouping: groups of 4, 2, 2, 2 and 6 bytes, a hyphen
    between consecutive groups. *)
Definition canonical_form (v : list Z) : string :=
  String.append (hex_of_bytes (take 4 v))
    (String "-" (String.append (hex_of_bytes (take 2 (drop 4 v)))
      (String "-" (String.append (hex_of_bytes (take 2 (drop 6 v)))
        (String "-" (String.append (hex_of_bytes (take 2 (drop 8 v)))
          (String "-" (hex_of_bytes (drop 10 v))))))))).

(** The spec's well-formed encoding: exactly 36 characters, a hyphen after
    the 8th, 12th, 16th and 20th hexadecimal digit (string positions 8, 13,
    18 and 23), and one of [0-9a-fA-F] everywhere else. *)
Definition separator_position (k : nat) : bool :=
  ((k =? 8) || (k =? 13) || (k =? 18) || (k =? 23))%nat.

Definition canonical_char_ok (s : string) (k : nat) : bool :=
  if separator_position k then Ascii.eqb (string_at s k) "-"
  else is_hex_digit_char (string_at s k).

Definition is_canonical_encoding (s : string) : bool :=
  (String.length s =? 36)%nat && forallb (canonical_char_ok s) (seq 0 36).

(** A buffer read as a big-endian unsigned integer. *)
Definition be_value (l : list Z) : Z :=
  fold_left (fun acc b => acc * 256 + b) l 0.

(** One pass of the increment loop over the whole counter. *)
Definition increment (next : list Z) : list Z :=
  increment_from static_size true next.

(** [n] calls of [get_and_increment_uuid] in a row on one thread, with the
    values they return in call order. *)
Fixpoint get_and_increment_uuid_n (n : nat) (tl : thread_locals)
  : result (list (list Z) * thread_locals) :=
  match n with
  | O => Ok ([], tl)
  | S n' =>
      p <- get_and_increment_uuid tl ;;
      let '(r, tl) := p in
      q <- get_and_increment_uuid_n n' tl ;;
      let '(rs, tl) := q in
      Ok (r :: rs, tl)
  end.

(** [n] calls of [generate_uuid] in a row on one thread, the device behaving
    as [dev] whenever it is asked. *)
Fixpoint generate_uuid_n (dev : dev_urandom) (n : nat) (tl : thread_locals)
  : result (list (list Z) * thread_locals) :=
  match n with
  | O => Ok ([], tl)
  | S n' =>
      p <- generate_uuid dev tl ;;
      let '(r, tl) := p in
      q <- generate_uuid_n dev n' tl ;;
      let '(rs, tl) := q in
      Ok (r :: rs, tl)
  end.

(** The counter value a call of [generate_uuid] digests: the stored one on
    an initialised thread, otherwise the first sixteen bytes the device
    delivers; [None] when the call ends the process instead. *)
Definition counter_for_call (dev : dev_urandom) (tl : thread_locals)
  : option (list Z) :=
  if next_uuid_initialized tl then Some (next_uuid tl)
  else match dev with
       | Delivers bytes =>
           if (kStaticSize <=? length bytes)%nat
           then Some (take kStaticSize bytes)
           else None
       | _ => None
       end.

(** The identifier [hash_uuid] leaves in place of [uuid]. *)
Definition hash_uuid_value (uuid : list Z) : list Z :=
  match hash_uuid uuid with
  | Ok r => r
  | _ => uuid
  end.

(** The three-way result of comparing two integers, as [memcmp] reports it. *)
Definition sign_of (c : comparison) : Z :=
  match c with Lt => -1 | Eq => 0 | Gt => 1 end.

(** * Properties *)

(** ** Finite enumeration of bytes and characters *)

Lemma uint8_enum (p : Z -> bool) :
  forallb p (map Z.of_nat (seq 0 256)) = true ->
  forall b, is_uint8 b -> p b = true.
Proof.
  intros Hall b [Hlo Hhi].
  rewrite forallb_forall in Hall. apply Hall.
  apply in_map_iff. exists (Z.to_nat b). split; [lia|].
  apply in_seq. lia.
Qed.

Lemma ascii_enum (p : ascii -> bool) :
  forallb p (map ascii_of_nat (seq 0 256)) = true ->
  forall c, p c = true.
Proof.
  intros Hall c.
  rewrite forallb_forall in Hall. apply Hall.
  apply in_map_iff. exists (nat_of_ascii c). split.
  - apply ascii_nat_embedding.
  - apply in_seq. pose proof (nat_ascii_bounded c). lia.
Qed.

Lemma option_Z_eqb_eq x y : option_Z_eqb x y = true -> x = y.
Proof.
  destruct x, y; simpl; intros H; try discriminate; try reflexivity.
  apply Z.eqb_eq in H. congruence.
Qed.

(** ** Hexadecimal digits *)

Lemma push_hex_app s byte :
  push_hex s byte
  = String.append s (String (hex_hi byte) (String (hex_lo byte) EmptyString)).
Proof.
  unfold push_hex, push_back, hex_hi, hex_lo, hex_char.
  induction s as [|c s IH]; simpl; [reflexivity|].
  f_equal. exact IH.
Qed.

Lemma from_hexdigit_accepts c :
  is_Some_b (from_hexdigit (char_to_int c)) = is_hex_digit_char c.
Proof.
  apply eqb_prop. revert c. apply ascii_enum. vm_compute. reflexivity.
Qed.

Lemma from_hexdigit_range c h :
  from_hexdigit (char_to_int c) = Some h -> 0 <= h < 16.
Proof.
  intros H.
  assert (Hc : match from_hexdigit (char_to_int c) with
               | Some h => (0 <=? h) && (h <? 16)
               | None => true
               end = true).
  { revert c H. intros c _. revert c. apply ascii_enum. vm_compute. reflexivity. }
  rewrite H in Hc. lia.
Qed.

Lemma from_hexdigit_lower c h :
  from_hexdigit (char_to_int c) = Some h -> hex_char h = ascii_lower c.
Proof.
  intros H.
  assert (Hc : match from_hexdigit (char_to_int c) with
               | Some h => Ascii.eqb (hex_char h) (ascii_lower c)
               | None => true
               end = true).
  { clear H. revert c. apply ascii_enum. vm_compute. reflexivity. }
  rewrite H in Hc. apply Ascii.eqb_eq. exact Hc.
Qed.

Lemma from_hexdigit_case_insensitive c :
  from_hexdigit (char_to_int (ascii_lower c)) = from_hexdigit (char_to_int c).
Proof.
  apply option_Z_eqb_eq. revert c. apply ascii_enum. vm_compute. reflexivity.
Qed.

Lemma from_hexdigit_hex_hi b :
  is_uint8 b -> from_hexdigit (char_to_int (hex_hi b)) = Some (Z.shiftr b 4).
Proof.
  intros H. apply option_Z_eqb_eq. revert b H.
  apply uint8_enum. vm_compute. reflexivity.
Qed.

Lemma from_hexdigit_hex_lo b :
  is_uint8 b -> from_hexdigit (char_to_int (hex_lo b)) = Some (Z.land b 15).
Proof.
  intros H. apply option_Z_eqb_eq. revert b H.
  apply uint8_enum. vm_compute. reflexivity.
Qed.

Lemma join_nibbles b :
  is_uint8 b -> to_uint8 (Z.lor (Z.shiftl (Z.shiftr b 4) 4) (Z.land b 15)) = b.
Proof.
  intros H. apply Z.eqb_eq. revert b H.
  apply uint8_enum. vm_compute. reflexivity.
Qed.

Lemma split_nibbles h l :
  0 <= h < 16 -> 0 <= l < 16 ->
  Z.shiftr (to_uint8 (Z.lor (Z.shiftl h 4) l)) 4 = h
  /\ Z.land (to_uint8 (Z.lor (Z.shiftl h 4) l)) 15 = l.
Proof.
  intros Hh Hl.
  assert (H : forall h, is_uint8 h ->
            (fun h => forallb (fun l =>
               (Z.shiftr (to_uint8 (Z.lor (Z.shiftl h 4) l)) 4 =? h)
               && (Z.land (to_uint8 (Z.lor (Z.shiftl h 4) l)) 15 =? l))
               (map Z.of_nat (seq 0 16)) || (16 <=? h)) h = true).
  { apply uint8_enum. vm_compute. reflexivity. }
  specialize (H h ltac:(unfold is_uint8; lia)). cbv beta in H.
  apply orb_true_iff in H. destruct H as [H|H]; [|lia].
  rewrite forallb_forall in H.
  specialize (H l).
  assert (Hin : In l (map Z.of_nat (seq 0 16))).
  { apply in_map_iff. exists (Z.to_nat l). split; [lia|]. apply in_seq. lia. }
  apply H in Hin. apply andb_true_iff in Hin. lia.
Qed.

Lemma hex_char_lower n :
  0 <= n < 16 -> is_lower_hex_char (hex_char n) = true.
Proof.
  intros H.
  assert (Hc : forall n, is_uint8 n ->
            (fun n => is_lower_hex_char (hex_char n) || (16 <=? n)) n = true).
  { apply uint8_enum. vm_compute. reflexivity. }
  specialize (Hc n ltac:(unfold is_uint8; lia)). cbv beta in Hc.
  apply orb_true_iff in Hc. destruct Hc; [assumption | lia].
Qed.

(** ** The decoder as a function of positions *)

Lemma start_pos_S i : start_pos (S i) = S (S (digit_pos i)).
Proof.
  do 12 (destruct i as [|i]; [reflexivity|]).
  unfold digit_pos, start_pos, separators_below, separator_case.
  cbn [Nat.ltb Nat.leb Nat.eqb orb]. lia.
Qed.

Lemma digit_pos_bound i :
  (i < kStaticSize)%nat -> (S (digit_pos i) < kStringSize)%nat.
Proof.
  intros H. unfold kStaticSize in H.
  do 16 (destruct i as [|i]; [vm_compute; lia|]). lia.
Qed.

Lemma start_pos_le_digit_pos i : (start_pos i <= digit_pos i)%nat.
Proof. unfold digit_pos. destruct (separator_case i); lia. Qed.

(** The loop never trips an assertion, and computes [decode_from]. *)
Lemma str_to_uuid_from_decode str fuel :
  forall i data,
    (i + fuel = kStaticSize)%nat ->
    str_to_uuid_from fuel i (start_pos i) str data
    = Ok (decode_from fuel i str data).
Proof.
  induction fuel as [|fuel IH]; intros i data Hi.
  - rewrite Nat.add_0_r in Hi. subst i. reflexivity.
  - assert (Hlt : (i < kStaticSize)%nat) by lia.
    pose proof (digit_pos_bound i Hlt) as Hb.
    pose proof (start_pos_le_digit_pos i) as Hle.
    assert (Hj0 : (start_pos i <? kStringSize)%nat = true)
      by (apply Nat.ltb_lt; lia).
    assert (Hj1 : (digit_pos i <? kStringSize)%nat = true)
      by (apply Nat.ltb_lt; lia).
    assert (Hj2 : (S (digit_pos i) <? kStringSize)%nat = true)
      by (apply Nat.ltb_lt; lia).
    cbn [str_to_uuid_from decode_from]. unfold decode_byte.
    assert (Hnext : forall d,
      str_to_uuid_from fuel (S i) (S (S (digit_pos i))) str d
      = Ok (decode_from fuel (S i) str d)).
    { intros d. rewrite <- start_pos_S. apply IH. lia. }
    unfold digit_pos in *.
    destruct (separator_case i); cbn [andb].
    + rewrite Hj0. cbn [rassert bind].
      destruct (Ascii.eqb (string_at str (start_pos i)) "-");
        cbn [negb bind]; [|reflexivity].
      rewrite Hj1. cbn [rassert bind].
      destruct (from_hexdigit (char_to_int (string_at str (S (start_pos i)))));
        [|reflexivity].
      rewrite Hj2. cbn [rassert bind].
      destruct (from_hexdigit
                  (char_to_int (string_at str (S (S (start_pos i))))));
        [|reflexivity].
      apply Hnext.
    + cbn [bind]. rewrite Hj1. cbn [rassert bind].
      destruct (from_hexdigit (char_to_int (string_at str (start_pos i))));
        [|reflexivity].
      rewrite Hj2. cbn [rassert bind].
      destruct (from_hexdigit (char_to_int (string_at str (S (start_pos i)))));
        [|reflexivity].
      apply Hnext.
Qed.

Lemma str_to_uuid_decode str uuid :
  str_to_uuid str uuid
  = if (String.length str =? kStringSize)%nat
    then Ok (decode_from kStaticSize 0 str uuid)
    else Ok (false, uuid).
Proof.
  unfold str_to_uuid.
  change (kStaticSize * 2 + 4)%nat with kStringSize.
  destruct (String.length str =? kStringSize)%nat; cbn [negb]; [|reflexivity].
  apply (str_to_uuid_from_decode str kStaticSize 0 uuid). reflexivity.
Qed.

(** The flag of [decode_from] does not depend on the buffer written to. *)
Lemma decode_from_flag str fuel :
  forall i data,
    fst (decode_from fuel i str data)
    = forallb (fun k => is_Some_b (decode_byte str k)) (seq i fuel).
Proof.
  induction fuel as [|fuel IH]; intros i data; [reflexivity|].
  cbn [decode_from seq forallb].
  destruct (decode_byte str i); cbn [is_Some_b andb fst]; [apply IH | reflexivity].
Qed.

(** On success every byte from [i] on has been stored. *)
Lemma decode_from_data str fuel :
  forall i data data',
    (i + fuel = length data)%nat ->
    decode_from fuel i str data = (true, data') ->
    length data' = length data
    /\ (forall k, (k < i)%nat -> data' !! k = data !! k)
    /\ (forall k, (i <= k < i + fuel)%nat -> decode_byte str k = data' !! k).
Proof.
  induction fuel as [|fuel IH]; intros i data data' Hlen H.
  - injection H as <-. split; [reflexivity|].
    split; [reflexivity | intros; lia].
  - cbn [decode_from] in H.
    destruct (decode_byte str i) as [b|] eqn:Hb; [|discriminate].
    apply IH in H; [|rewrite length_insert; lia].
    destruct H as (Hl & Hlow & Hhigh).
    rewrite length_insert in Hl.
    split; [exact Hl|]. split.
    + intros k Hk. rewrite Hlow by lia.
      apply list_lookup_insert_ne. lia.
    + intros k Hk. destruct (decide (k = i)) as [->|Hne].
      * rewrite Hlow by lia. rewrite Hb. symmetry.
        apply list_lookup_insert_eq. lia.
      * apply Hhigh. lia.
Qed.

(** ** The encoder as a function of byte groups *)

Lemma string_append_assoc (a b c : string) :
  String.append (String.append a b) c = String.append a (String.append b c).
Proof. induction a as [|x a IH]; simpl; [reflexivity | now rewrite IH]. Qed.

Lemma string_append_empty_r (a : string) : String.append a EmptyString = a.
Proof. induction a as [|x a IH]; simpl; [reflexivity | now rewrite IH]. Qed.

Lemma push_hex_from_app data fuel :
  forall i ret,
    (i + fuel <= length data)%nat ->
    push_hex_from fuel i data ret
    = String.append ret (hex_of_bytes (take fuel (drop i data))).
Proof.
  induction fuel as [|fuel IH]; intros i ret Hle.
  - simpl. now rewrite string_append_empty_r.
  - cbn [push_hex_from]. rewrite IH by lia.
    destruct (lookup_lt_is_Some_2 data i ltac:(lia)) as [x Hx].
    rewrite (drop_S _ _ _ Hx).
    rewrite (list_lookup_total_correct _ _ _ Hx).
    rewrite push_hex_app, string_append_assoc. reflexivity.
Qed.

Lemma uuid_to_str_canonical_form v :
  length v = kStaticSize -> uuid_to_str v = canonical_form v.
Proof.
  intros Hlen. unfold uuid_to_str, push_hex_range, push_back.
  rewrite !push_hex_from_app by (rewrite Hlen; cbv; lia).
  rewrite !string_append_assoc. cbn [String.append Nat.sub kStaticSize].
  unfold canonical_form. rewrite drop_0.
  replace (take 6 (drop 10 v)) with (drop 10 v); [reflexivity|].
  symmetry. apply take_ge. rewrite length_drop, Hlen. cbv; lia.
Qed.

(** Sixteen named bytes for a buffer of length [kStaticSize]. *)
Lemma uuid_explicit (v : list Z) :
  length v = kStaticSize ->
  exists b0 b1 b2 b3 b4 b5 b6 b7 b8 b9 b10 b11 b12 b13 b14 b15,
    v = [b0; b1; b2; b3; b4; b5; b6; b7; b8; b9; b10; b11; b12; b13; b14; b15].
Proof.
  intros H.
  do 16 (destruct v as [|? v]; [discriminate H|]).
  destruct v; [|discriminate H].
  repeat eexists.
Qed.

(** Where the digits of byte [i] and the hyphens sit in the encoding. *)
Lemma uuid_to_str_at v i :
  length v = kStaticSize -> (i < kStaticSize)%nat ->
  string_at (uuid_to_str v) (digit_pos i) = hex_hi (v !!! i)
  /\ string_at (uuid_to_str v) (S (digit_pos i)) = hex_lo (v !!! i)
  /\ (separator_case i = true ->
      string_at (uuid_to_str v) (start_pos i) = "-"%char).
Proof.
  intros Hlen Hi. rewrite (uuid_to_str_canonical_form v Hlen).
  destruct (uuid_explicit v Hlen)
    as (b0&b1&b2&b3&b4&b5&b6&b7&b8&b9&b10&b11&b12&b13&b14&b15&->).
  unfold kStaticSize in Hi.
  do 16 (destruct i as [|i];
         [repeat split; intros; solve [reflexivity | discriminate]|]).
  lia.
Qed.

Lemma uuid_to_str_length v :
  length v = kStaticSize -> String.length (uuid_to_str v) = kStringSize.
Proof.
  intros Hlen. rewrite (uuid_to_str_canonical_form v Hlen).
  destruct (uuid_explicit v Hlen)
    as (b0&b1&b2&b3&b4&b5&b6&b7&b8&b9&b10&b11&b12&b13&b14&b15&->).
  reflexivity.
Qed.

(** ** Decoding an encoding *)

Lemma uuid_wf_lookup_total v i :
  uuid_wf v -> (i < kStaticSize)%nat -> is_uint8 (v !!! i).
Proof.
  intros [Hlen Hall] Hi.
  destruct (lookup_lt_is_Some_2 v i ltac:(lia)) as [x Hx].
  rewrite (list_lookup_total_correct _ _ _ Hx).
  exact (Forall_lookup_1 _ _ _ _ Hall Hx).
Qed.

Lemma decode_byte_encode v i :
  uuid_wf v -> (i < kStaticSize)%nat ->
  decode_byte (uuid_to_str v) i = Some (v !!! i).
Proof.
  intros Hwf Hi.
  pose proof (uuid_wf_lookup_total v i Hwf Hi) as Hb.
  destruct Hwf as [Hlen _].
  destruct (uuid_to_str_at v i Hlen Hi) as (Hhi & Hlo & Hsep).
  unfold decode_byte.
  assert (Hguard : separator_case i
                   && negb (Ascii.eqb (string_at (uuid_to_str v) (start_pos i)) "-")
                   = false).
  { destruct (separator_case i); [|reflexivity].
    rewrite Hsep by reflexivity. reflexivity. }
  rewrite Hguard, Hhi, Hlo.
  rewrite (from_hexdigit_hex_hi _ Hb), (from_hexdigit_hex_lo _ Hb).
  now rewrite (join_nibbles _ Hb).
Qed.

Lemma str_to_uuid_uuid_to_str v out :
  uuid_wf v -> length out = kStaticSize ->
  str_to_uuid (uuid_to_str v) out = Ok (true, v).
Proof.
  intros Hwf Hout. pose proof Hwf as [Hlen _].
  rewrite str_to_uuid_decode, (uuid_to_str_length v Hlen), Nat.eqb_refl.
  destruct (decode_from kStaticSize 0 (uuid_to_str v) out) as [b d] eqn:E.
  assert (Hb : b = true).
  { change b with (fst (b, d)). rewrite <- E, decode_from_flag.
    apply forallb_forall. intros k Hk. apply in_seq in Hk.
    rewrite decode_byte_encode by (auto; lia). reflexivity. }
  subst b.
  apply decode_from_data in E; [|rewrite Hout; reflexivity].
  destruct E as (Hl & _ & Hk).
  do 2 f_equal. apply list_eq. intros k.
  destruct (decide (k < kStaticSize)%nat) as [Hlt|Hge].
  - rewrite <- Hk by lia. rewrite decode_byte_encode by auto.
    symmetry. apply list_lookup_lookup_total_lt. lia.
  - rewrite !lookup_ge_None_2 by lia. reflexivity.
Qed.

(** ** Which strings are accepted *)

Lemma decode_byte_accepts s i :
  is_Some_b (decode_byte s i)
  = (negb (separator_case i) || Ascii.eqb (string_at s (start_pos i)) "-")
    && (is_hex_digit_char (string_at s (digit_pos i))
        && is_hex_digit_char (string_at s (S (digit_pos i)))).
Proof.
  unfold decode_byte. rewrite <- !from_hexdigit_accepts.
  destruct (separator_case i),
    (Ascii.eqb (string_at s (start_pos i)) "-"),
    (from_hexdigit (char_to_int (string_at s (digit_pos i)))),
    (from_hexdigit (char_to_int (string_at s (S (digit_pos i)))));
    reflexivity.
Qed.

Lemma canonical_chars_decode s :
  forallb (canonical_char_ok s) (seq 0 36)
  = forallb (fun k => is_Some_b (decode_byte s k)) (seq 0 kStaticSize).
Proof.
  unfold kStaticSize. cbn [seq forallb]. rewrite !decode_byte_accepts.
  unfold canonical_char_ok.
  cbn [separator_position separator_case digit_pos start_pos separators_below
       Nat.eqb Nat.ltb Nat.leb Nat.add Nat.mul orb negb andb].
  rewrite <- !andb_assoc. reflexivity.
Qed.

Lemma str_to_uuid_flag s out :
  exists out', str_to_uuid s out = Ok (is_canonical_encoding s, out').
Proof.
  rewrite str_to_uuid_decode. unfold is_canonical_encoding.
  change kStringSize with 36%nat.
  destruct (String.length s =? 36)%nat; cbn [andb]; [|eauto].
  rewrite canonical_chars_decode, <- (decode_from_flag s kStaticSize 0 out).
  destruct (decode_from kStaticSize 0 s out) as [b d]. eauto.
Qed.

(** ** The counter as a big-endian integer *)

Lemma be_value_snoc l b : be_value (l ++ [b]) = be_value l * 256 + b.
Proof. unfold be_value. now rewrite fold_left_app. Qed.

Lemma be_value_bound l :
  Forall is_uint8 l -> 0 <= be_value l < 256 ^ Z.of_nat (length l).
Proof.
  induction l as [|b l IH] using rev_ind; intros Hall.
  - cbn. lia.
  - apply Forall_app in Hall as [Hl Hb].
    apply Forall_cons_1 in Hb as [Hb _]. unfold is_uint8 in Hb.
    specialize (IH Hl).
    rewrite be_value_snoc, length_app, Nat.add_1_r, Nat2Z.inj_succ.
    rewrite Z.pow_succ_r by lia. lia.
Qed.

Lemma increment_from_no_carry i next : increment_from i false next = next.
Proof. destruct i; reflexivity. Qed.

(** The loop at index [i] leaves everything from the buffer's end on alone. *)
Lemma increment_from_app i :
  forall carry l t,
    (i <= length l)%nat ->
    increment_from i carry (l ++ t) = increment_from i carry l ++ t.
Proof.
  induction i as [|i IH]; intros carry l t Hle; [reflexivity|].
  cbn [increment_from]. destruct carry; [|reflexivity].
  rewrite (lookup_total_app_l l t i) by lia.
  rewrite (insert_app_l l t i) by lia.
  rewrite lookup_total_app_l by (rewrite length_insert; lia).
  apply IH. rewrite length_insert. lia.
Qed.

(** One increment adds one modulo [256 ^ length]: the carry runs from the
    last byte toward the first and is dropped past the first. *)
Lemma increment_from_value l :
  Forall is_uint8 l ->
  length (increment_from (length l) true l) = length l
  /\ Forall is_uint8 (increment_from (length l) true l)
  /\ be_value (increment_from (length l) true l)
     = (be_value l + 1) mod 256 ^ Z.of_nat (length l).
Proof.
  induction l as [|b l IH] using rev_ind; intros Hall.
  - cbn. repeat split. constructor.
  - apply Forall_app in Hall as [Hl Hb].
    apply Forall_cons_1 in Hb as [Hb _].
    destruct (IH Hl) as (IHlen & IHall & IHval).
    pose proof (be_value_bound l Hl) as Hbound.
    rewrite length_app, Nat.add_1_r. cbn [increment_from].
    rewrite (list_lookup_total_middle l [] b (length l) eq_refl).
    rewrite (insert_app_r_alt l [b] (length l)) by lia.
    rewrite Nat.sub_diag. cbn [insert list_insert].
    rewrite (list_lookup_total_middle l [] _ (length l) eq_refl).
    rewrite Nat2Z.inj_succ, Z.pow_succ_r by lia.
    unfold is_uint8, to_uint8 in *.
    destruct (Z.eqb_spec ((b + 1) mod 256) 0) as [Hz|Hnz].
    + assert (b = 255) by (destruct (Z.eq_dec b 255) as [|Hne]; [assumption|];
        rewrite Z.mod_small in Hz by lia; lia).
      subst b. rewrite Hz.
      rewrite increment_from_app by lia.
      rewrite length_app, IHlen. split; [simpl; lia|]. split.
      * apply Forall_app. split; [exact IHall|]. repeat constructor; lia.
      * rewrite !be_value_snoc, IHval.
        replace (be_value l * 256 + 255 + 1) with ((be_value l + 1) * 256) by lia.
        rewrite (Z.mul_comm 256 (256 ^ Z.of_nat (length l))).
        rewrite Z.mul_mod_distr_r by lia. lia.
    + assert (b < 255) by (destruct (Z.eq_dec b 255) as [->|Hne];
        [exfalso; apply Hnz; reflexivity | lia]).
      rewrite Z.mod_small by lia.
      rewrite increment_from_no_carry.
      rewrite length_app. split; [simpl; lia|]. split.
      * apply Forall_app. split; [exact Hl|]. repeat constructor; lia.
      * rewrite !be_value_snoc. rewrite Z.mod_small; lia.
Qed.

Lemma increment_wf next :
  uuid_wf next ->
  uuid_wf (increment next)
  /\ be_value (increment next) = (be_value next + 1) mod 2 ^ 128.
Proof.
  intros [Hlen Hall]. unfold increment, static_size.
  rewrite <- Hlen.
  destruct (increment_from_value next Hall) as (Hl & Ha & Hv).
  split; [split; [congruence | exact Ha]|].
  rewrite Hv, Hlen. reflexivity.
Qed.

Lemma increment_iter_value next (k : nat) :
  uuid_wf next ->
  uuid_wf (Nat.iter k increment next)
  /\ be_value (Nat.iter k increment next)
     = (be_value next + Z.of_nat k) mod 2 ^ 128.
Proof.
  intros Hwf. induction k as [|k [IHwf IHval]].
  - split; [exact Hwf|].
    destruct Hwf as [Hlen Hall]. pose proof (be_value_bound next Hall) as Hb.
    rewrite Hlen in Hb. change (256 ^ Z.of_nat kStaticSize) with (2 ^ 128) in Hb.
    rewrite Z.add_0_r, Z.mod_small; [reflexivity | lia].
  - change (Nat.iter (S k) increment next)
      with (increment (Nat.iter k increment next)).
    destruct (increment_wf _ IHwf) as [Hwf' Hval'].
    split; [exact Hwf'|].
    rewrite Hval', IHval, Nat2Z.inj_succ.
    rewrite Zplus_mod_idemp_l. f_equal. lia.
Qed.

(** The counter before the digest does not return to a value it has had
    until [2 ^ 128] calls have been made. *)
Lemma increment_iter_distinct next (j k : nat) :
  uuid_wf next ->
  (j < k)%nat -> Z.of_nat k - Z.of_nat j < 2 ^ 128 ->
  Nat.iter j increment next <> Nat.iter k increment next.
Proof.
  intros Hwf Hjk Hlt Heq.
  destruct (increment_iter_value next j Hwf) as [_ Hj].
  destruct (increment_iter_value next k Hwf) as [_ Hk].
  rewrite Heq, Hk in Hj.
  set (m := 2 ^ 128) in *. assert (Hm : 0 < m) by (subst m; lia).
  assert (Hd : (Z.of_nat k - Z.of_nat j) mod m = 0).
  { replace (Z.of_nat k - Z.of_nat j)
      with ((be_value next + Z.of_nat k) - (be_value next + Z.of_nat j)) by lia.
    rewrite Zminus_mod, Hj, Z.sub_diag. apply Z.mod_0_l. lia. }
  rewrite Z.mod_small in Hd by lia. lia.
Qed.

(** ** The digest step *)

(** The model of SHA-1 on the test vectors of FIPS 180: the empty message
    and "abc". *)
Example sha1_empty :
  SHA1.sha1 []
  = [218; 57; 163; 238; 94; 107; 75; 13; 50; 85;
     191; 239; 149; 96; 24; 144; 175; 216; 7; 9].
Proof. vm_compute. reflexivity. Qed.

Example sha1_abc :
  SHA1.sha1 [97; 98; 99]
  = [169; 153; 62; 54; 71; 6; 129; 106; 186; 62;
     37; 113; 120; 80; 194; 108; 156; 208; 216; 157].
Proof. vm_compute. reflexivity. Qed.

Lemma sha1_length msg : length (SHA1.sha1 msg) = SHA1.SHA_DIGEST_LENGTH.
Proof.
  unfold SHA1.sha1.
  destruct (fold_left SHA1.compress _ SHA1.init) as [[[[h0 h1] h2] h3] h4].
  reflexivity.
Qed.

Lemma version_field b : Z.land (to_uint8 (Z.lor (Z.land b 15) 64)) 240 = 64.
Proof.
  change 15 with (Z.ones 4). rewrite Z.land_ones by lia.
  pose proof (Z.mod_pos_bound b (2 ^ 4) ltac:(lia)) as Hx.
  assert (H : forall x, is_uint8 x ->
            (fun x => (16 <=? x)
                      || (Z.land (to_uint8 (Z.lor x 64)) 240 =? 64)) x = true).
  { apply uint8_enum. vm_compute. reflexivity. }
  specialize (H (b mod 2 ^ 4) ltac:(unfold is_uint8; lia)). cbv beta in H.
  apply orb_true_iff in H. destruct H as [H|H]; lia.
Qed.

Lemma variant_field b : Z.land (to_uint8 (Z.lor (Z.land b 63) 128)) 192 = 128.
Proof.
  change 63 with (Z.ones 6). rewrite Z.land_ones by lia.
  pose proof (Z.mod_pos_bound b (2 ^ 6) ltac:(lia)) as Hx.
  assert (H : forall x, is_uint8 x ->
            (fun x => (64 <=? x)
                      || (Z.land (to_uint8 (Z.lor x 128)) 192 =? 128)) x = true).
  { apply uint8_enum. vm_compute. reflexivity. }
  specialize (H (b mod 2 ^ 6) ltac:(unfold is_uint8; lia)). cbv beta in H.
  apply orb_true_iff in H. destruct H as [H|H]; lia.
Qed.

(** [hash_uuid] always returns, and what it returns carries both fields. *)
Lemma hash_uuid_fields uuid :
  exists r, hash_uuid uuid = Ok r
    /\ Z.land (r !!! 6%nat) 240 = 64
    /\ Z.land (r !!! 8%nat) 192 = 128.
Proof.
  unfold hash_uuid, SHA1.SHA1_Init, SHA1.SHA1_Update, SHA1.SHA1_Final.
  cbn [Z.eqb Pos.eqb guarantee bind app].
  set (ob := SHA1.sha1 (take static_size uuid)).
  assert (Hob : length ob = 20%nat) by apply sha1_length.
  eexists. split; [reflexivity|].
  unfold memcpy, static_size, kStaticSize.
  rewrite !lookup_total_app_l
    by (rewrite length_take, !length_insert, Hob; cbv; lia).
  rewrite !lookup_total_take_lt by lia.
  split.
  - rewrite list_lookup_total_insert_ne by lia.
    rewrite list_lookup_total_insert_eq by (rewrite Hob; lia).
    apply version_field.
  - rewrite list_lookup_total_insert_eq by (rewrite length_insert, Hob; lia).
    rewrite list_lookup_total_insert_ne by lia.
    apply variant_field.
Qed.

Lemma uuid_t_new_ok :
  uuid_t_new = Ok (c_str magic_unset_uuid).
Proof. reflexivity. Qed.

Lemma get_and_increment_uuid_ok tl :
  length (next_uuid tl) = kStaticSize ->
  get_and_increment_uuid tl
  = Ok (next_uuid tl,
        mk_thread_locals (next_uuid_initialized tl) (increment (next_uuid tl))).
Proof.
  intros Hlen. unfold get_and_increment_uuid.
  rewrite uuid_t_new_ok. cbn [bind]. unfold memcpy, static_size.
  rewrite take_ge by lia.
  rewrite drop_ge by (cbv; lia). now rewrite app_nil_r.
Qed.

Lemma get_and_increment_uuid_returns tl :
  exists r tl', get_and_increment_uuid tl = Ok (r, tl').
Proof. unfold get_and_increment_uuid. rewrite uuid_t_new_ok. cbn [bind]. eauto. Qed.

(** An initialised thread digests the counter it had before the call and
    leaves the incremented counter behind: consecutive calls feed
    consecutive counter values to [hash_uuid]. *)
Lemma generate_uuid_digest_input dev tl :
  next_uuid_initialized tl = true ->
  length (next_uuid tl) = kStaticSize ->
  exists u,
    hash_uuid (next_uuid tl) = Ok u
    /\ generate_uuid dev tl
       = Ok (u, mk_thread_locals true (increment (next_uuid tl))).
Proof.
  intros Hinit Hlen.
  destruct (hash_uuid_fields (next_uuid tl)) as (u & Hu & _).
  exists u. split; [exact Hu|].
  unfold generate_uuid. rewrite Hinit. cbn [negb bind].
  rewrite (get_and_increment_uuid_ok tl Hlen). cbn [bind].
  rewrite Hu, Hinit. reflexivity.
Qed.

(** * Main theorems *)

(** ** Special values *)

(** C8. [nil_uuid()] is nil; a default-constructed identifier is unset and
    is not nil; the unset sentinel is the fixed sixteen-byte pattern
    "UNSET_UUID_____" followed by a NUL, none of whose first fifteen bytes is
    zero, and it differs from the all-zero nil value. *)
Theorem nil_and_unset_values :
  (exists n, nil_uuid = Ok n /\ is_nil n = true
             /\ n = replicate kStaticSize 0 /\ is_unset n = false)
  /\ (exists d, uuid_t_new = Ok d /\ is_unset d = true /\ is_nil d = false
                /\ length d = kStaticSize
                /\ d = [85; 78; 83; 69; 84; 95; 85; 85; 73; 68;
                        95; 95; 95; 95; 95; 0]
                /\ d <> replicate kStaticSize 0
                /\ uuid_eq d (replicate kStaticSize 0) = false).
Proof.
  split.
  - exists (replicate kStaticSize 0). repeat split.
  - exists (c_str magic_unset_uuid). repeat split. discriminate.
Qed.

(** ** The counter *)

(** C7. On a well-formed counter [get_and_increment_uuid] returns without
    error, hands back the old counter, and leaves in the thread-local buffer
    the old value plus one modulo [2 ^ 128], read as a big-endian integer;
    a counter of sixteen [0xFF] bytes becomes sixteen zero bytes. *)
Theorem get_and_increment_uuid_adds_one tl :
  uuid_wf (next_uuid tl) ->
  exists r next',
    get_and_increment_uuid tl
    = Ok (r, mk_thread_locals (next_uuid_initialized tl) next')
    /\ r = next_uuid tl
    /\ uuid_wf next'
    /\ be_value next' = (be_value (next_uuid tl) + 1) mod 2 ^ 128
    /\ (next_uuid tl = replicate kStaticSize 255 ->
        next' = replicate kStaticSize 0).
Proof.
  intros Hwf. pose proof Hwf as [Hlen _].
  exists (next_uuid tl), (increment (next_uuid tl)).
  destruct (increment_wf _ Hwf) as [Hwf' Hval].
  split; [apply get_and_increment_uuid_ok; exact Hlen|].
  split; [reflexivity|]. split; [exact Hwf'|]. split; [exact Hval|].
  intros ->. reflexivity.
Qed.

Lemma get_and_increment_uuid_adds_one_witness :
  uuid_wf (replicate kStaticSize 255)
  /\ exists r next',
       get_and_increment_uuid (mk_thread_locals true (replicate kStaticSize 255))
       = Ok (r, mk_thread_locals true next')
       /\ r = replicate kStaticSize 255
       /\ uuid_wf next'
       /\ be_value next' = (be_value (replicate kStaticSize 255) + 1) mod 2 ^ 128
       /\ (replicate kStaticSize 255 = replicate kStaticSize 255 ->
           next' = replicate kStaticSize 0).
Proof.
  assert (Hwf : uuid_wf (replicate kStaticSize 255)).
  { split; [reflexivity|]. apply Forall_replicate. unfold is_uint8. lia. }
  split; [exact Hwf|].
  exact (get_and_increment_uuid_adds_one
           (mk_thread_locals true (replicate kStaticSize 255)) Hwf).
Defined.

(** ** Generation *)

(** C3. Whatever the device delivers and whatever the counter holds, an
    identifier returned by [generate_uuid] has [0100] in the top nibble of
    byte 6 and [10] in the top two bits of byte 8; and [generate_uuid] does
    return one as soon as the thread is initialised or the device delivers
    the sixteen bytes asked for. *)
Theorem generate_uuid_version4_fields dev tl :
  (forall u tl',
      generate_uuid dev tl = Ok (u, tl') ->
      Z.land (u !!! 6%nat) 240 = 64 /\ Z.land (u !!! 8%nat) 192 = 128)
  /\ (next_uuid_initialized tl = true
      \/ (exists bytes, dev = Delivers bytes
                        /\ (kStaticSize <= length bytes)%nat) ->
      exists u tl', generate_uuid dev tl = Ok (u, tl')).
Proof.
  assert (Hrest : forall tl1,
    exists u tl',
      (p <- get_and_increment_uuid tl1 ;;
       let '(result, tl) := p in
       result <- hash_uuid result ;; Ok (result, tl)) = Ok (u, tl')
      /\ Z.land (u !!! 6%nat) 240 = 64 /\ Z.land (u !!! 8%nat) 192 = 128).
  { intros tl1.
    destruct (get_and_increment_uuid_returns tl1) as (r & tl2 & E).
    destruct (hash_uuid_fields r) as (h & Eh & F6 & F8).
    exists h, tl2. rewrite E. cbn [bind]. rewrite Eh. cbn [bind]. auto. }
  split.
  - intros u tl' H. unfold generate_uuid in H.
    destruct (if negb (next_uuid_initialized tl) then _ else _) as [tl1| |];
      cbn [bind] in H; try discriminate.
    destruct (Hrest tl1) as (u1 & tl1' & E & F).
    rewrite E in H. injection H as <- <-. exact F.
  - intros Hpre. unfold generate_uuid.
    assert (Hinit : exists tl1,
      (if negb (next_uuid_initialized tl)
       then tl0 <- initialize_dev_random_uuid dev tl ;;
            Ok (mk_thread_locals true (next_uuid tl0))
       else Ok tl) = Ok tl1).
    { destruct (next_uuid_initialized tl) eqn:Ei; cbn [negb]; [eauto|].
      destruct Hpre as [Hpre | (bytes & -> & Hlen)]; [discriminate|].
      unfold initialize_dev_random_uuid, open_urandom, read_urandom.
      cbn [Z.eqb negb guarantee bind].
      rewrite length_take_le by exact Hlen.
      unfold static_size. rewrite Z.eqb_refl. cbn [guarantee bind]. eauto. }
    destruct Hinit as (tl1 & ->). cbn [bind].
    destruct (Hrest tl1) as (u1 & tl1' & E & _). eauto.
Qed.

Lemma generate_uuid_version4_fields_witness :
  generate_uuid (Delivers (replicate 16 255)) thread_start
  = Ok ([82; 224; 233; 212; 244; 108; 71; 202;
         155; 203; 7; 8; 209; 134; 51; 105],
        mk_thread_locals true (replicate 16 0))
  /\ Z.land 71 240 = 64 /\ Z.land 155 192 = 128.
Proof.
  split; [vm_compute; reflexivity|].
  apply (proj1 (generate_uuid_version4_fields
                  (Delivers (replicate 16 255)) thread_start)
           [82; 224; 233; 212; 244; 108; 71; 202;
            155; 203; 7; 8; 209; 134; 51; 105]
           (mk_thread_locals true (replicate 16 0))).
  vm_compute. reflexivity.
Defined.

(** ** Positions of the canonical form *)

(** Every position below [kStringSize] is a digit of some byte or the
    separator in front of one. *)
Lemma positions_cover (P : nat -> Prop) :
  (forall i, (i < kStaticSize)%nat ->
     P (digit_pos i) /\ P (S (digit_pos i))
     /\ (separator_case i = true -> P (start_pos i))) ->
  forall k, (k < kStringSize)%nat -> P k.
Proof.
  intros H k Hk.
  assert (H' : forall i, (i <? kStaticSize)%nat = true ->
     P (digit_pos i) /\ P (S (digit_pos i))
     /\ (separator_case i = true -> P (start_pos i))).
  { intros i Hi. apply H. apply Nat.ltb_lt. exact Hi. }
  pose proof (H' 0%nat eq_refl) as (?&?&_).
  pose proof (H' 1%nat eq_refl) as (?&?&_).
  pose proof (H' 2%nat eq_refl) as (?&?&_).
  pose proof (H' 3%nat eq_refl) as (?&?&_).
  pose proof (H' 4%nat eq_refl) as (?&?&S4). specialize (S4 eq_refl).
  pose proof (H' 5%nat eq_refl) as (?&?&_).
  pose proof (H' 6%nat eq_refl) as (?&?&S6). specialize (S6 eq_refl).
  pose proof (H' 7%nat eq_refl) as (?&?&_).
  pose proof (H' 8%nat eq_refl) as (?&?&S8). specialize (S8 eq_refl).
  pose proof (H' 9%nat eq_refl) as (?&?&_).
  pose proof (H' 10%nat eq_refl) as (?&?&S10). specialize (S10 eq_refl).
  pose proof (H' 11%nat eq_refl) as (?&?&_).
  pose proof (H' 12%nat eq_refl) as (?&?&_).
  pose proof (H' 13%nat eq_refl) as (?&?&_).
  pose proof (H' 14%nat eq_refl) as (?&?&_).
  pose proof (H' 15%nat eq_refl) as (?&?&_).
  clear H H'. unfold kStringSize, kStaticSize in Hk.
  do 36 (destruct k as [|k]; [assumption|]). lia.
Qed.

Lemma string_at_ext (a b : string) :
  String.length a = String.length b ->
  (forall k, (k < String.length a)%nat -> string_at a k = string_at b k) ->
  a = b.
Proof.
  revert b. induction a as [|x a IH]; intros [|y b] Hlen H;
    try discriminate; [reflexivity|].
  f_equal.
  - apply (H 0%nat). simpl. lia.
  - apply IH; [now injection Hlen|].
    intros k Hk. apply (H (S k)). simpl. lia.
Qed.

Lemma string_lower_length s : String.length (string_lower s) = String.length s.
Proof. induction s as [|c s IH]; simpl; [reflexivity | now rewrite IH]. Qed.

Lemma string_lower_at s :
  forall k, (k < String.length s)%nat ->
    string_at (string_lower s) k = ascii_lower (string_at s k).
Proof.
  induction s as [|c s IH]; intros k Hk; simpl in Hk; [lia|].
  destruct k as [|k]; [reflexivity|].
  apply (IH k). lia.
Qed.

Lemma ascii_lower_not_upper c : is_upper_char (ascii_lower c) = false.
Proof.
  apply negb_true_iff. revert c. apply ascii_enum. vm_compute. reflexivity.
Qed.

Lemma string_lower_not_upper s k :
  is_upper_char (string_at (string_lower s) k) = false.
Proof.
  revert k. induction s as [|c s IH]; intros k.
  - destruct k; reflexivity.
  - destruct k as [|k]; [apply ascii_lower_not_upper | apply (IH k)].
Qed.

(** What a successful iteration read, in terms of what [push_hex] writes. *)
Lemma decode_byte_lower s i b :
  decode_byte s i = Some b ->
  hex_hi b = ascii_lower (string_at s (digit_pos i))
  /\ hex_lo b = ascii_lower (string_at s (S (digit_pos i)))
  /\ (separator_case i = true -> string_at s (start_pos i) = "-"%char).
Proof.
  unfold decode_byte. intros H.
  destruct (separator_case i) eqn:Es; cbn [andb] in H.
  - destruct (Ascii.eqb_spec (string_at s (start_pos i)) "-") as [Hsep|];
      cbn [negb] in H; [|discriminate].
    destruct (from_hexdigit (char_to_int (string_at s (digit_pos i))))
      as [h|] eqn:Eh; [|discriminate].
    destruct (from_hexdigit (char_to_int (string_at s (S (digit_pos i)))))
      as [l|] eqn:El; [|discriminate].
    injection H as <-.
    destruct (split_nibbles h l (from_hexdigit_range _ _ Eh)
                (from_hexdigit_range _ _ El)) as [Hh Hl].
    unfold hex_hi, hex_lo. rewrite Hh, Hl.
    rewrite (from_hexdigit_lower _ _ Eh), (from_hexdigit_lower _ _ El). auto.
  - destruct (from_hexdigit (char_to_int (string_at s (digit_pos i))))
      as [h|] eqn:Eh; [|discriminate].
    destruct (from_hexdigit (char_to_int (string_at s (S (digit_pos i)))))
      as [l|] eqn:El; [|discriminate].
    injection H as <-.
    destruct (split_nibbles h l (from_hexdigit_range _ _ Eh)
                (from_hexdigit_range _ _ El)) as [Hh Hl].
    unfold hex_hi, hex_lo. rewrite Hh, Hl.
    rewrite (from_hexdigit_lower _ _ Eh), (from_hexdigit_lower _ _ El).
    repeat split. discriminate.
Qed.

(** Re-encoding what was decoded gives the input in lowercase. *)
Lemma uuid_to_str_str_to_uuid s out u :
  length out = kStaticSize ->
  str_to_uuid s out = Ok (true, u) ->
  uuid_to_str u = string_lower s.
Proof.
  intros Hout H. rewrite str_to_uuid_decode in H.
  destruct (Nat.eqb_spec (String.length s) kStringSize) as [Hs|];
    [|discriminate].
  assert (E : decode_from kStaticSize 0 s out = (true, u)) by congruence.
  apply decode_from_data in E; [|rewrite Hout; reflexivity].
  destruct E as (Hlu & _ & Hk). rewrite Hout in Hlu.
  apply string_at_ext.
  - now rewrite uuid_to_str_length, string_lower_length.
  - rewrite uuid_to_str_length by exact Hlu. intros k Hlt.
    rewrite string_lower_at by lia. revert k Hlt.
    apply positions_cover. intros i Hi.
    destruct (uuid_to_str_at u i Hlu Hi) as (Uhi & Ulo & Usep).
    assert (Hb : decode_byte s i = Some (u !!! i)).
    { rewrite Hk by (unfold kStaticSize in *; lia).
      apply list_lookup_lookup_total_lt. lia. }
    destruct (decode_byte_lower s i _ Hb) as (Dhi & Dlo & Dsep).
    rewrite Uhi, Ulo. repeat split; try assumption.
    intros Es. rewrite (Usep Es), (Dsep Es). reflexivity.
Qed.

(** ** Encoding *)

Lemma canonical_form_chars v :
  uuid_wf v ->
  forall k, (k < kStringSize)%nat ->
    if separator_position k
    then string_at (uuid_to_str v) k = "-"%char
    else is_lower_hex_char (string_at (uuid_to_str v) k) = true.
Proof.
  intros Hwf. pose proof Hwf as [Hlen _].
  apply (positions_cover (fun k =>
    if separator_position k
    then string_at (uuid_to_str v) k = "-"%char
    else is_lower_hex_char (string_at (uuid_to_str v) k) = true)).
  intros i Hi.
  destruct (uuid_to_str_at v i Hlen Hi) as (Hhi & Hlo & Hsep).
  pose proof (uuid_wf_lookup_total v i Hwf Hi) as Hb. unfold is_uint8 in Hb.
  assert (Hh : is_lower_hex_char (string_at (uuid_to_str v) (digit_pos i)) = true).
  { rewrite Hhi. apply hex_char_lower.
    rewrite Z.shiftr_div_pow2 by lia. change (2 ^ 4) with 16.
    split; [apply Z.div_pos; lia | apply Z.div_lt_upper_bound; lia]. }
  assert (Hl : is_lower_hex_char
                 (string_at (uuid_to_str v) (S (digit_pos i))) = true).
  { rewrite Hlo. apply hex_char_lower.
    change 15 with (Z.ones 4). rewrite Z.land_ones by lia.
    apply Z.mod_pos_bound. lia. }
  clear Hhi Hlo Hb. unfold kStaticSize in Hi.
  do 16 (destruct i as [|i];
         [split; [exact Hh | split; [exact Hl | first [exact Hsep | discriminate]]]|]).
  lia.
Qed.

(** C6. For a sixteen-byte value [uuid_to_str] returns 36 characters: the
    bytes in order as two lowercase hexadecimal digits each, in groups of
    4, 2, 2, 2 and 6 bytes with a hyphen between groups, so that positions
    8, 13, 18 and 23 hold hyphens and all others lowercase digits; sixteen
    zero bytes give "00000000-0000-0000-0000-000000000000". *)
Theorem uuid_to_str_canonical v :
  uuid_wf v ->
  String.length (uuid_to_str v) = 36%nat
  /\ uuid_to_str v = canonical_form v
  /\ (forall k, (k < 36)%nat ->
        if separator_position k
        then string_at (uuid_to_str v) k = "-"%char
        else is_lower_hex_char (string_at (uuid_to_str v) k) = true)
  /\ uuid_to_str (replicate kStaticSize 0)
     = "00000000-0000-0000-0000-000000000000"%string.
Proof.
  intros Hwf. pose proof Hwf as [Hlen _].
  split; [exact (uuid_to_str_length v Hlen)|].
  split; [exact (uuid_to_str_canonical_form v Hlen)|].
  split; [exact (canonical_form_chars v Hwf) | reflexivity].
Qed.

Lemma uuid_to_str_canonical_witness :
  uuid_wf [1; 35; 69; 103; 137; 171; 205; 239; 0; 1; 2; 3; 4; 5; 254; 255]
  /\ uuid_to_str [1; 35; 69; 103; 137; 171; 205; 239; 0; 1; 2; 3; 4; 5; 254; 255]
     = "01234567-89ab-cdef-0001-02030405feff"%string
  /\ String.length
       (uuid_to_str
          [1; 35; 69; 103; 137; 171; 205; 239; 0; 1; 2; 3; 4; 5; 254; 255])
     = 36%nat.
Proof.
  assert (Hwf : uuid_wf
    [1; 35; 69; 103; 137; 171; 205; 239; 0; 1; 2; 3; 4; 5; 254; 255]).
  { split; [reflexivity|]. repeat constructor; unfold is_uint8; lia. }
  split; [exact Hwf|]. split; [reflexivity|].
  exact (proj1 (uuid_to_str_canonical _ Hwf)).
Defined.

(** ** Decoding *)

Lemma memcmp_refl x n : memcmp x x n = 0.
Proof.
  revert x. induction n as [|n IH]; intros [|a x]; try reflexivity.
  cbn [memcmp]. rewrite Z.ltb_irrefl. apply IH.
Qed.

(** C1. For a sixteen-byte value [v], [str_to_uuid(uuid_to_str(v), &out)]
    returns [true] and leaves exactly [v] in [out], equal to [v] also by
    [operator==]; the throwing overload returns [v] as well. *)
Theorem str_to_uuid_round_trip v out :
  uuid_wf v -> length out = kStaticSize ->
  (exists out',
      str_to_uuid (uuid_to_str v) out = Ok (true, out')
      /\ out' = v /\ uuid_eq out' v = true)
  /\ str_to_uuid_or_throw (uuid_to_str v) = Ok v.
Proof.
  intros Hwf Hout. split.
  - exists v. split; [apply str_to_uuid_uuid_to_str; assumption|].
    split; [reflexivity|]. unfold uuid_eq. now rewrite memcmp_refl.
  - unfold str_to_uuid_or_throw. rewrite uuid_t_new_ok. cbn [bind].
    rewrite (str_to_uuid_uuid_to_str v (c_str magic_unset_uuid) Hwf eq_refl).
    reflexivity.
Qed.

Lemma str_to_uuid_round_trip_witness :
  uuid_wf [1; 35; 69; 103; 137; 171; 205; 239; 0; 1; 2; 3; 4; 5; 254; 255]
  /\ length (replicate 16 7) = kStaticSize
  /\ str_to_uuid_or_throw
       (uuid_to_str
          [1; 35; 69; 103; 137; 171; 205; 239; 0; 1; 2; 3; 4; 5; 254; 255])
     = Ok [1; 35; 69; 103; 137; 171; 205; 239; 0; 1; 2; 3; 4; 5; 254; 255].
Proof.
  assert (Hwf : uuid_wf
    [1; 35; 69; 103; 137; 171; 205; 239; 0; 1; 2; 3; 4; 5; 254; 255]).
  { split; [reflexivity|]. repeat constructor; unfold is_uint8; lia. }
  split; [exact Hwf|]. split; [reflexivity|].
  exact (proj2 (str_to_uuid_round_trip _ (replicate 16 7) Hwf eq_refl)).
Defined.

(** The spec's well-formedness, read position by position. *)
Lemma is_canonical_encoding_iff s :
  is_canonical_encoding s = true <->
  String.length s = 36%nat
  /\ forall k, (k < 36)%nat ->
       if separator_position k then string_at s k = "-"%char
       else is_hex_digit_char (string_at s k) = true.
Proof.
  unfold is_canonical_encoding.
  rewrite andb_true_iff, Nat.eqb_eq, forallb_forall.
  split; intros [Hlen H]; (split; [exact Hlen|]).
  - intros k Hk. specialize (H k ltac:(apply in_seq; lia)).
    unfold canonical_char_ok in H.
    destruct (separator_position k); [now apply Ascii.eqb_eq | exact H].
  - intros k Hk. apply in_seq in Hk. specialize (H k ltac:(lia)).
    unfold canonical_char_ok.
    destruct (separator_position k); [now apply Ascii.eqb_eq | exact H].
Qed.

(** C4. [str_to_uuid] never trips an assertion; it returns [true] exactly on
    the strings of 36 characters that hold a hyphen at positions 8, 13, 18
    and 23 and one of [0-9a-fA-F] (either case) at every other position,
    and [false] on every other string. *)
Theorem str_to_uuid_accepts_exactly s out :
  exists ok out',
    str_to_uuid s out = Ok (ok, out')
    /\ ok = is_canonical_encoding s
    /\ (ok = true <->
        String.length s = 36%nat
        /\ forall k, (k < 36)%nat ->
             if separator_position k then string_at s k = "-"%char
             else is_hex_digit_char (string_at s k) = true).
Proof.
  destruct (str_to_uuid_flag s out) as [out' H].
  exists (is_canonical_encoding s), out'.
  split; [exact H|]. split; [reflexivity|]. apply is_canonical_encoding_iff.
Qed.

(** C5. [is_uuid] returns a boolean, never an exception, and that boolean is
    the flag the non-throwing [str_to_uuid] returns on the same string,
    whatever the output buffer holds; when the flag is [false] the throwing
    overload it calls does throw, and [is_uuid] turns that into [false]. *)
Theorem is_uuid_agrees_with_str_to_uuid s out :
  exists ok out',
    str_to_uuid s out = Ok (ok, out')
    /\ is_uuid s = Ok ok
    /\ (if ok then exists u, str_to_uuid_or_throw s = Ok u
        else str_to_uuid_or_throw s = Throw "invalid uuid").
Proof.
  destruct (str_to_uuid_flag s out) as [out' H].
  exists (is_canonical_encoding s), out'. split; [exact H|].
  unfold is_uuid, str_to_uuid_or_throw. rewrite uuid_t_new_ok. cbn [bind].
  destruct (str_to_uuid_flag s (c_str magic_unset_uuid)) as [d ->].
  cbn [bind]. destruct (is_canonical_encoding s); eauto.
Qed.

(** C9. When [str_to_uuid] accepts [s], encoding the decoded value gives [s]
    with every uppercase letter replaced by its lowercase one, a string
    without uppercase letters; [from_hexdigit] gives a letter and its
    lowercase form the same value. *)
Theorem uuid_to_str_normalizes_case s out u :
  length out = kStaticSize ->
  str_to_uuid s out = Ok (true, u) ->
  uuid_to_str u = string_lower s
  /\ (forall k, is_upper_char (string_at (uuid_to_str u) k) = false)
  /\ (forall c, from_hexdigit (char_to_int (ascii_lower c))
                = from_hexdigit (char_to_int c)).
Proof.
  intros Hout H.
  pose proof (uuid_to_str_str_to_uuid s out u Hout H) as E.
  split; [exact E|]. split.
  - intros k. rewrite E. apply string_lower_not_upper.
  - apply from_hexdigit_case_insensitive.
Qed.

Lemma uuid_to_str_normalizes_case_witness :
  length (replicate 16 0) = kStaticSize
  /\ str_to_uuid "ABCDEF01-2345-6789-abCD-Ef0123456789" (replicate 16 0)
     = Ok (true, [171; 205; 239; 1; 35; 69; 103; 137;
                  171; 205; 239; 1; 35; 69; 103; 137])
  /\ uuid_to_str [171; 205; 239; 1; 35; 69; 103; 137;
                  171; 205; 239; 1; 35; 69; 103; 137]
     = "abcdef01-2345-6789-abcd-ef0123456789"%string.
Proof.
  split; [reflexivity|]. split; [vm_compute; reflexivity|].
  exact (proj1 (uuid_to_str_normalizes_case
                  "ABCDEF01-2345-6789-abCD-Ef0123456789" (replicate 16 0)
                  [171; 205; 239; 1; 35; 69; 103; 137;
                   171; 205; 239; 1; 35; 69; 103; 137]
                  eq_refl ltac:(vm_compute; reflexivity))).
Defined.

(** C10. A failed decode may have written to the output already: the
    36-character string below is rejected at its 25th character, after the
    first twelve bytes of an all-zero output have been overwritten. *)
Theorem str_to_uuid_failure_overwrites :
  exists s out out',
    String.length s = 36%nat
    /\ uuid_wf out
    /\ str_to_uuid s out = Ok (false, out')
    /\ out' <> out
    /\ take 12 out' = [1; 35; 69; 103; 137; 171; 205; 239; 1; 35; 69; 103]
    /\ drop 12 out' = drop 12 out.
Proof.
  exists "01234567-89ab-cdef-0123-4567zzzzzzzz"%string, (replicate 16 0),
    [1; 35; 69; 103; 137; 171; 205; 239; 1; 35; 69; 103; 0; 0; 0; 0].
  split; [reflexivity|]. split.
  { split; [reflexivity|]. apply Forall_replicate. unfold is_uint8. lia. }
  split; [vm_compute; reflexivity|].
  split; [discriminate|]. split; reflexivity.
Qed.

(** * Further properties *)

(** ** Comparison operators *)

Lemma be_value_cons a x :
  be_value (a :: x) = a * 256 ^ Z.of_nat (length x) + be_value x.
Proof.
  induction x as [|b x IH] using rev_ind.
  - cbn. lia.
  - rewrite app_comm_cons, !be_value_snoc, IH, length_app, Nat.add_1_r.
    rewrite Nat2Z.inj_succ, Z.pow_succ_r by lia. ring.
Qed.

Lemma memcmp_eq_iff n :
  forall x y, length x = n -> length y = n -> (memcmp x y n = 0 <-> x = y).
Proof.
  induction n as [|n IH]; intros [|a x] [|b y] Hx Hy; try discriminate.
  - split; reflexivity.
  - cbn [memcmp]. injection Hx as Hx. injection Hy as Hy.
    destruct (Z.ltb_spec a b); [split; [lia | intros [= -> _]; lia]|].
    destruct (Z.ltb_spec b a); [split; [lia | intros [= -> _]; lia]|].
    assert (a = b) by lia. subst b. rewrite (IH x y Hx Hy).
    split; [intros ->; reflexivity | intros [= ->]; reflexivity].
Qed.

(** On byte buffers [memcmp] compares the big-endian integers. *)
Lemma memcmp_be_value x :
  forall y, length x = length y -> Forall is_uint8 x -> Forall is_uint8 y ->
    memcmp x y (length x) = sign_of (be_value x ?= be_value y).
Proof.
  induction x as [|a x IH]; intros [|b y] Hlen Hx Hy; try discriminate.
  - reflexivity.
  - injection Hlen as Hlen.
    apply Forall_cons_1 in Hx as [Ha Hx]. apply Forall_cons_1 in Hy as [Hb Hy].
    pose proof (be_value_bound x Hx) as Bx.
    pose proof (be_value_bound y Hy) as By. rewrite <- Hlen in By.
    cbn [memcmp length]. rewrite !be_value_cons, <- Hlen.
    set (P := 256 ^ Z.of_nat (length x)) in *.
    unfold is_uint8 in Ha, Hb.
    destruct (Z.ltb_spec a b) as [Hab|Hab].
    + rewrite (proj2 (Z.compare_lt_iff _ _)); [reflexivity | nia].
    + destruct (Z.ltb_spec b a) as [Hba|Hba].
      * rewrite (proj2 (Z.compare_gt_iff _ _)); [reflexivity | nia].
      * assert (a = b) by lia. subst b.
        rewrite Z.add_compare_mono_l. apply IH; assumption.
Qed.

Lemma be_value_inj x y :
  length x = length y -> Forall is_uint8 x -> Forall is_uint8 y ->
  be_value x = be_value y -> x = y.
Proof.
  intros Hlen Hx Hy Hv.
  apply (memcmp_eq_iff (length x) x y eq_refl (eq_sym Hlen)).
  rewrite (memcmp_be_value x y Hlen Hx Hy), Hv, Z.compare_refl. reflexivity.
Qed.

Lemma uuid_lt_be_value x y :
  uuid_wf x -> uuid_wf y -> uuid_lt x y = (be_value x <? be_value y).
Proof.
  intros [Lx Hx] [Ly Hy]. unfold uuid_lt, static_size. rewrite <- Lx.
  rewrite (memcmp_be_value x y ltac:(congruence) Hx Hy).
  destruct (Z.compare_spec (be_value x) (be_value y)); cbn [sign_of];
    symmetry; [apply Z.ltb_ge; lia | apply Z.ltb_lt; lia | apply Z.ltb_ge; lia].
Qed.

Lemma uuid_eq_true_iff x y :
  length x = kStaticSize -> length y = kStaticSize ->
  (uuid_eq x y = true <-> x = y).
Proof.
  intros Lx Ly. unfold uuid_eq. rewrite Z.eqb_eq.
  apply memcmp_eq_iff; assumption.
Qed.

Lemma uuid_wf_check u :
  (length u =? kStaticSize)%nat
  && forallb (fun b => (0 <=? b) && (b <? 256)) u = true ->
  uuid_wf u.
Proof.
  intros H. apply andb_true_iff in H as [Hl Hb].
  split; [now apply Nat.eqb_eq|].
  apply Forall_forall. intros b Hin.
  rewrite forallb_forall in Hb. apply list_elem_of_In, Hb in Hin.
  unfold is_uint8. lia.
Qed.

Ltac solve_uuid_wf := apply uuid_wf_check; vm_compute; reflexivity.

(** X1. [operator==] on two identifiers is equality of their sixteen
    bytes; it is symmetric, and two identifiers it equates are not ordered
    by [operator<] either way. *)
Theorem operator_eq_is_equality x y :
  length x = kStaticSize -> length y = kStaticSize ->
  (uuid_eq x y = true <-> x = y)
  /\ uuid_eq x y = uuid_eq y x
  /\ (uuid_eq x y = true -> uuid_lt x y = false /\ uuid_lt y x = false).
Proof.
  intros Lx Ly. pose proof (uuid_eq_true_iff x y Lx Ly) as Hxy.
  pose proof (uuid_eq_true_iff y x Ly Lx) as Hyx.
  split; [exact Hxy|]. split.
  - destruct (uuid_eq x y) eqn:E1, (uuid_eq y x) eqn:E2; try reflexivity.
    + symmetry. apply (proj2 Hyx). symmetry. apply (proj1 Hxy). reflexivity.
    + apply (proj2 Hxy). symmetry. apply (proj1 Hyx). reflexivity.
  - intros E. destruct Hxy as [Hxy _]. rewrite <- (Hxy E).
    unfold uuid_lt. rewrite memcmp_refl. split; reflexivity.
Qed.

Lemma operator_eq_is_equality_witness :
  length (replicate 16 7) = kStaticSize
  /\ length (replicate 15 7 ++ [8]) = kStaticSize
  /\ (uuid_eq (replicate 16 7) (replicate 15 7 ++ [8]) = true
      <-> replicate 16 7 = replicate 15 7 ++ [8]).
Proof.
  split; [reflexivity|]. split; [reflexivity|].
  exact (proj1 (operator_eq_is_equality (replicate 16 7)
                  (replicate 15 7 ++ [8]) eq_refl eq_refl)).
Defined.

(** X2. [operator<] orders identifiers as 128-bit big-endian unsigned
    integers. *)
Theorem operator_lt_is_numeric_order x y :
  uuid_wf x -> uuid_wf y ->
  (uuid_lt x y = true <-> be_value x < be_value y).
Proof.
  intros Hx Hy. rewrite (uuid_lt_be_value x y Hx Hy). apply Z.ltb_lt.
Qed.

Lemma operator_lt_is_numeric_order_witness :
  uuid_wf (replicate 15 0 ++ [255])
  /\ uuid_wf (replicate 14 0 ++ [1; 0])
  /\ (uuid_lt (replicate 15 0 ++ [255]) (replicate 14 0 ++ [1; 0]) = true
      <-> be_value (replicate 15 0 ++ [255])
          < be_value (replicate 14 0 ++ [1; 0])).
Proof.
  assert (H1 : uuid_wf (replicate 15 0 ++ [255])) by solve_uuid_wf.
  assert (H2 : uuid_wf (replicate 14 0 ++ [1; 0])) by solve_uuid_wf.
  split; [exact H1|]. split; [exact H2|].
  exact (operator_lt_is_numeric_order _ _ H1 H2).
Defined.

(** X3. [operator<] is a strict total order on identifiers, with
    [operator==] as its equality: it is irreflexive and transitive, and of
    [x < y], [x == y], [y < x] exactly one holds. *)
Theorem operator_lt_strict_total_order x y z :
  uuid_wf x -> uuid_wf y -> uuid_wf z ->
  uuid_lt x x = false
  /\ (uuid_lt x y = true -> uuid_lt y z = true -> uuid_lt x z = true)
  /\ ((uuid_lt x y = true /\ uuid_eq x y = false /\ uuid_lt y x = false)
      \/ (uuid_lt x y = false /\ uuid_eq x y = true /\ uuid_lt y x = false)
      \/ (uuid_lt x y = false /\ uuid_eq x y = false /\ uuid_lt y x = true)).
Proof.
  intros Hx Hy Hz.
  rewrite (uuid_lt_be_value x x Hx Hx), (uuid_lt_be_value x y Hx Hy),
    (uuid_lt_be_value y z Hy Hz), (uuid_lt_be_value x z Hx Hz),
    (uuid_lt_be_value y x Hy Hx).
  split; [apply Z.ltb_irrefl|]. split.
  - rewrite !Z.ltb_lt. lia.
  - pose proof Hx as [Lx Bx]. pose proof Hy as [Ly By].
    pose proof (uuid_eq_true_iff x y Lx Ly) as Heq.
    destruct (Z.lt_total (be_value x) (be_value y)) as [Hlt|[Hv|Hgt]].
    + left. split; [apply Z.ltb_lt; lia|]. split; [|apply Z.ltb_ge; lia].
      apply not_true_is_false. intros E. apply Heq in E. subst y. lia.
    + right; left. split; [apply Z.ltb_ge; lia|].
      split; [|apply Z.ltb_ge; lia].
      apply Heq, be_value_inj; [congruence | assumption..].
    + right; right. split; [apply Z.ltb_ge; lia|].
      split; [|apply Z.ltb_lt; lia].
      apply not_true_is_false. intros E. apply Heq in E. subst y. lia.
Qed.

Lemma operator_lt_strict_total_order_witness :
  uuid_wf (replicate 16 1) /\ uuid_wf (replicate 16 2)
  /\ uuid_wf (replicate 16 3)
  /\ uuid_lt (replicate 16 1) (replicate 16 1) = false.
Proof.
  assert (H1 : uuid_wf (replicate 16 1)) by solve_uuid_wf.
  assert (H2 : uuid_wf (replicate 16 2)) by solve_uuid_wf.
  assert (H3 : uuid_wf (replicate 16 3)) by solve_uuid_wf.
  split; [exact H1|]. split; [exact H2|]. split; [exact H3|].
  exact (proj1 (operator_lt_strict_total_order _ _ _ H1 H2 H3)).
Defined.

(** ** Special values *)

Lemma is_nil_from_true fuel :
  forall i u,
    is_nil_from fuel i u = true
    <-> forall k, (i <= k < i + fuel)%nat -> u !!! k = 0.
Proof.
  induction fuel as [|fuel IH]; intros i u.
  - split; [intros _ k Hk; lia | reflexivity].
  - cbn [is_nil_from]. destruct (Z.eqb_spec (u !!! i) 0) as [Hz|Hnz]; cbn [negb].
    + rewrite IH. split; intros H k Hk.
      * destruct (decide (k = i)) as [->|Hne]; [exact Hz | apply H; lia].
      * apply H. lia.
    + split; [discriminate|]. intros H. exfalso. apply Hnz, H. lia.
Qed.

Lemma is_nil_true_iff u :
  length u = kStaticSize -> (is_nil u = true <-> u = replicate kStaticSize 0).
Proof.
  intros Hlen. split; [|intros ->; reflexivity].
  intros H0. unfold is_nil in H0.
  pose proof (proj1 (is_nil_from_true kStaticSize 0 u) H0) as H.
  apply list_eq. intros k.
  destruct (decide (k < kStaticSize)%nat) as [Hlt|Hge].
  - rewrite lookup_replicate_2 by exact Hlt.
    rewrite <- (H k ltac:(lia)).
    apply list_lookup_lookup_total_lt. lia.
  - rewrite !lookup_ge_None_2; [reflexivity | rewrite length_replicate; lia | lia].
Qed.

Lemma is_unset_true_iff u :
  length u = kStaticSize ->
  (is_unset u = true <-> u = c_str magic_unset_uuid).
Proof.
  intros Hlen. unfold is_unset. rewrite Z.eqb_eq.
  apply memcmp_eq_iff; [exact Hlen | reflexivity].
Qed.

(** X4. [is_nil] holds of the all-zero value only and [is_unset] of the
    sentinel only, so no identifier is both nil and unset; the nil value is
    the least identifier under [operator<]. *)
Theorem is_nil_is_unset_recognise u :
  uuid_wf u ->
  (is_nil u = true <-> u = replicate kStaticSize 0)
  /\ (is_unset u = true <-> u = c_str magic_unset_uuid)
  /\ is_nil u && is_unset u = false
  /\ uuid_lt u (replicate kStaticSize 0) = false
  /\ (is_nil u = false -> uuid_lt (replicate kStaticSize 0) u = true).
Proof.
  intros Hwf. pose proof Hwf as [Hlen Hb].
  pose proof (is_nil_true_iff u Hlen) as Hn.
  pose proof (is_unset_true_iff u Hlen) as Hu.
  assert (H0 : uuid_wf (replicate kStaticSize 0)) by solve_uuid_wf.
  pose proof (be_value_bound u Hb) as Bu.
  split; [exact Hn|]. split; [exact Hu|]. split; [|split].
  - destruct (is_nil u) eqn:En; [|reflexivity].
    destruct (is_unset u) eqn:Eu; [|reflexivity].
    destruct Hn as [Hn _]. destruct Hu as [Hu _].
    rewrite (Hn eq_refl) in Hu. discriminate (Hu eq_refl).
  - rewrite (uuid_lt_be_value _ _ Hwf H0). apply Z.ltb_ge.
    change (be_value (replicate kStaticSize 0)) with 0. lia.
  - intros En. rewrite (uuid_lt_be_value _ _ H0 Hwf). apply Z.ltb_lt.
    change (be_value (replicate kStaticSize 0)) with 0.
    destruct (Z.eq_dec (be_value u) 0) as [Hz|Hnz]; [|lia].
    exfalso. assert (u = replicate kStaticSize 0).
    { apply be_value_inj; [rewrite Hlen; reflexivity | exact Hb
                          | apply H0 | exact Hz]. }
    apply Hn in H. congruence.
Qed.

Lemma is_nil_is_unset_recognise_witness :
  uuid_wf (c_str magic_unset_uuid)
  /\ is_nil (c_str magic_unset_uuid) && is_unset (c_str magic_unset_uuid)
     = false.
Proof.
  assert (H : uuid_wf (c_str magic_unset_uuid)) by solve_uuid_wf.
  split; [exact H|].
  exact (proj1 (proj2 (proj2 (is_nil_is_unset_recognise _ H)))).
Defined.

(** ** Digits *)

(** X5. [from_hexdigit] takes any [int]: it accepts exactly the codes of
    '0'-'9', 'a'-'f' and 'A'-'F', gives them the values 0-9, 10-15 and
    10-15, and rejects every other integer, negative ones and the letters
    'g'-'z', 'G'-'Z' included; a value it gives is below 16. *)
Theorem from_hexdigit_values ch :
  from_hexdigit ch
  = (if (48 <=? ch) && (ch <=? 57) then Some (ch - 48)
     else if (97 <=? ch) && (ch <=? 102) then Some (ch - 87)
     else if (65 <=? ch) && (ch <=? 70) then Some (ch - 55)
     else None)
  /\ match from_hexdigit ch with
     | Some h => 0 <= h < 16
     | None => ch < 48 \/ 57 < ch < 65 \/ 70 < ch < 97 \/ 102 < ch
     end.
Proof.
  unfold from_hexdigit, isdigit, tolower.
  destruct (Z.leb_spec 48 ch), (Z.leb_spec ch 57), (Z.leb_spec 65 ch),
    (Z.leb_spec ch 90), (Z.leb_spec 97 ch), (Z.leb_spec ch 102),
    (Z.leb_spec ch 70); cbn [andb]; try lia;
    repeat match goal with
      | |- context [?a <=? ?b] => destruct (Z.leb_spec a b); cbn [andb]
      end;
    try lia; (split; [first [reflexivity | f_equal; lia] | lia]).
Qed.

(** ** Decoding: what happens to the output buffer *)

Lemma decode_byte_uint8 s i b : decode_byte s i = Some b -> is_uint8 b.
Proof.
  unfold decode_byte. intros H.
  destruct (separator_case i && _); [discriminate|].
  destruct (from_hexdigit _); [|discriminate].
  destruct (from_hexdigit _); [|discriminate].
  injection H as <-. unfold is_uint8, to_uint8. apply Z.mod_pos_bound. lia.
Qed.

Lemma decode_from_wf s fuel :
  forall i data,
    length (snd (decode_from fuel i s data)) = length data
    /\ (Forall is_uint8 data ->
        Forall is_uint8 (snd (decode_from fuel i s data))).
Proof.
  induction fuel as [|fuel IH]; intros i data; [split; auto|].
  cbn [decode_from]. destruct (decode_byte s i) as [b|] eqn:Hb; [|split; auto].
  destruct (IH (S i) (<[i := b]> data)) as [Hl Hf].
  rewrite length_insert in Hl. split; [exact Hl|].
  intros Hd. apply Hf, Forall_insert; [exact Hd|].
  exact (decode_byte_uint8 s i b Hb).
Qed.

Lemma decode_from_failure s fuel :
  forall i data data',
    decode_from fuel i s data = (false, data') ->
    exists n, (i <= n < i + fuel)%nat
      /\ decode_byte s n = None
      /\ (forall k, (i <= k < n)%nat -> (k < length data)%nat ->
            data' !! k = decode_byte s k)
      /\ (forall k, (k < i \/ n <= k)%nat -> data' !! k = data !! k).
Proof.
  induction fuel as [|fuel IH]; intros i data data' H; [discriminate|].
  cbn [decode_from] in H.
  destruct (decode_byte s i) as [b|] eqn:Hb.
  - apply IH in H as (n & Hn & Hnone & Hdec & Hsame).
    exists n. split; [lia|]. split; [exact Hnone|]. split.
    + intros k Hk Hlen. destruct (decide (k = i)) as [->|Hne].
      * rewrite Hsame by lia. rewrite Hb.
        apply list_lookup_insert_eq. exact Hlen.
      * apply Hdec; [lia | rewrite length_insert; exact Hlen].
    + intros k Hk. rewrite Hsame by lia.
      apply list_lookup_insert_ne. lia.
  - injection H as <-. exists i. split; [lia|]. split; [exact Hb|].
    split; [intros; lia | reflexivity].
Qed.

Lemma str_to_uuid_buffer_wf s out ok out' :
  uuid_wf out -> str_to_uuid s out = Ok (ok, out') -> uuid_wf out'.
Proof.
  intros [Hlen Hb] H. rewrite str_to_uuid_decode in H.
  destruct (String.length s =? kStringSize)%nat.
  - destruct (decode_from_wf s kStaticSize 0 out) as [Hl Hf].
    assert (E : decode_from kStaticSize 0 s out = (ok, out')) by congruence.
    rewrite E in Hl, Hf. split; [cbn [snd] in Hl; congruence | exact (Hf Hb)].
  - assert (out' = out) by congruence. subst out'. split; assumption.
Qed.

(** X6. [str_to_uuid] keeps its output a sixteen-byte buffer of bytes,
    whether it accepts the string or not: the length of the buffer is as it
    was and every byte in it is a byte. *)
Theorem str_to_uuid_keeps_buffer_well_formed s out ok out' :
  uuid_wf out -> str_to_uuid s out = Ok (ok, out') ->
  length out' = length out /\ Forall is_uint8 out' /\ uuid_wf out'.
Proof.
  intros Hwf H. pose proof Hwf as [Hlen Hb].
  assert (Hwf' : uuid_wf out') by exact (str_to_uuid_buffer_wf _ _ _ _ Hwf H).
  destruct Hwf' as [Hlen' Hb'].
  split; [congruence|]. split; [exact Hb'|]. split; assumption.
Qed.

Lemma str_to_uuid_keeps_buffer_well_formed_witness :
  uuid_wf (replicate 16 9)
  /\ str_to_uuid "0123456789abcdef-0000-0000-0000-0000" (replicate 16 9)
     = Ok (false, [1; 35; 69; 103] ++ replicate 12 9)
  /\ uuid_wf ([1; 35; 69; 103] ++ replicate 12 9).
Proof.
  assert (H : uuid_wf (replicate 16 9)) by solve_uuid_wf.
  assert (E : str_to_uuid "0123456789abcdef-0000-0000-0000-0000"
                (replicate 16 9)
              = Ok (false, [1; 35; 69; 103] ++ replicate 12 9))
    by (vm_compute; reflexivity).
  split; [exact H|]. split; [exact E|].
  exact (proj2 (proj2 (str_to_uuid_keeps_buffer_well_formed _ _ _ _ H E))).
Defined.

(** X7. A string whose length is not 36 is rejected before the output is
    touched: [str_to_uuid] returns [false] with the buffer unchanged, the
    throwing overload throws and [is_uuid] is false. *)
Theorem str_to_uuid_wrong_length s out :
  String.length s <> 36%nat ->
  str_to_uuid s out = Ok (false, out)
  /\ str_to_uuid_or_throw s = Throw "invalid uuid"
  /\ is_uuid s = Ok false.
Proof.
  intros Hlen.
  assert (E : forall o, str_to_uuid s o = Ok (false, o)).
  { intros o. rewrite str_to_uuid_decode.
    destruct (Nat.eqb_spec (String.length s) kStringSize) as [Heq|];
      [contradiction | reflexivity]. }
  split; [apply E|].
  unfold is_uuid, str_to_uuid_or_throw.
  rewrite uuid_t_new_ok. cbn [bind]. rewrite E. cbn [bind]. auto.
Qed.

Lemma str_to_uuid_wrong_length_witness :
  String.length "not-a-uuid" <> 36%nat
  /\ str_to_uuid "not-a-uuid" (replicate 16 0) = Ok (false, replicate 16 0).
Proof.
  assert (H : String.length "not-a-uuid" <> 36%nat) by discriminate.
  split; [exact H|].
  exact (proj1 (str_to_uuid_wrong_length "not-a-uuid" (replicate 16 0) H)).
Defined.

(** X8. A failed decode of a 36-character string stopped at some byte index
    [n] below 16: the bytes before [n] hold what was decoded, the bytes from
    [n] on are as they were; in particular the last byte is never written by
    a call that returns [false]. *)
Theorem str_to_uuid_failure_shape s out out' :
  length out = kStaticSize ->
  str_to_uuid s out = Ok (false, out') ->
  length out' = kStaticSize
  /\ out' !! 15%nat = out !! 15%nat
  /\ (String.length s <> 36%nat /\ out' = out
      \/ String.length s = 36%nat
         /\ exists n, (n < kStaticSize)%nat
              /\ decode_byte s n = None
              /\ (forall k, (k < n)%nat -> out' !! k = decode_byte s k)
              /\ drop n out' = drop n out).
Proof.
  intros Hlen H. rewrite str_to_uuid_decode in H.
  destruct (Nat.eqb_spec (String.length s) kStringSize) as [Hs|Hs].
  - assert (E : decode_from kStaticSize 0 s out = (false, out')) by congruence.
    pose proof (proj1 (decode_from_wf s kStaticSize 0 out)) as Hl.
    rewrite E in Hl. cbn [snd] in Hl.
    apply decode_from_failure in E as (n & Hn & Hnone & Hdec & Hsame).
    split; [congruence|]. split; [apply Hsame; unfold kStaticSize in Hn; lia|].
    right. split; [exact Hs|]. exists n. split; [lia|]. split; [exact Hnone|].
    split.
    + intros k Hk. apply Hdec; [lia | rewrite Hlen; lia].
    + apply list_eq. intros k. rewrite !lookup_drop. apply Hsame. lia.
  - assert (out' = out) by congruence. subst out'.
    split; [exact Hlen|]. split; [reflexivity|]. left. split; [exact Hs | reflexivity].
Qed.

Lemma str_to_uuid_failure_shape_witness :
  length (replicate 16 9) = kStaticSize
  /\ str_to_uuid "0123456789abcdef-0000-0000-0000-0000" (replicate 16 9)
     = Ok (false, [1; 35; 69; 103] ++ replicate 12 9)
  /\ length ([1; 35; 69; 103] ++ replicate 12 9) = kStaticSize.
Proof.
  assert (E : str_to_uuid "0123456789abcdef-0000-0000-0000-0000"
                (replicate 16 9)
              = Ok (false, [1; 35; 69; 103] ++ replicate 12 9))
    by (vm_compute; reflexivity).
  split; [reflexivity|]. split; [exact E|].
  exact (proj1 (str_to_uuid_failure_shape
                  "0123456789abcdef-0000-0000-0000-0000" (replicate 16 9)
                  ([1; 35; 69; 103] ++ replicate 12 9)
                  (eq_refl : length (replicate 16 9) = kStaticSize) E)).
Defined.

(** ** Decoding: what the result depends on *)

Lemma str_to_uuid_success_unique s out1 out2 u :
  length out1 = kStaticSize -> length out2 = kStaticSize ->
  str_to_uuid s out1 = Ok (true, u) ->
  str_to_uuid s out2 = Ok (true, u).
Proof.
  intros L1 L2 H1.
  destruct (str_to_uuid_flag s out1) as [o1 E1].
  destruct (str_to_uuid_flag s out2) as [o2 E2].
  assert (Hc : is_canonical_encoding s = true) by congruence.
  rewrite Hc in E2. rewrite E2. do 2 f_equal.
  rewrite str_to_uuid_decode in H1, E2.
  destruct (String.length s =? kStringSize)%nat; [|discriminate].
  assert (D1 : decode_from kStaticSize 0 s out1 = (true, u)) by congruence.
  assert (D2 : decode_from kStaticSize 0 s out2 = (true, o2)) by congruence.
  apply decode_from_data in D1 as (Hl1 & _ & Hk1); [|rewrite L1; reflexivity].
  apply decode_from_data in D2 as (Hl2 & _ & Hk2); [|rewrite L2; reflexivity].
  apply list_eq. intros k.
  destruct (decide (k < kStaticSize)%nat) as [Hlt|Hge].
  - rewrite <- Hk1, <- Hk2 by lia. reflexivity.
  - rewrite !lookup_ge_None_2 by lia. reflexivity.
Qed.

(** X9. What a successful decode leaves in the output depends on the string
    alone, not on what the buffer held before; the throwing overload, which
    decodes into a fresh unset identifier, returns that same value. *)
Theorem str_to_uuid_result_ignores_buffer s out1 out2 u :
  length out1 = kStaticSize -> length out2 = kStaticSize ->
  str_to_uuid s out1 = Ok (true, u) ->
  str_to_uuid s out2 = Ok (true, u) /\ str_to_uuid_or_throw s = Ok u.
Proof.
  intros L1 L2 H. split; [exact (str_to_uuid_success_unique _ _ _ _ L1 L2 H)|].
  unfold str_to_uuid_or_throw. rewrite uuid_t_new_ok. cbn [bind].
  rewrite (str_to_uuid_success_unique s out1 (c_str magic_unset_uuid) u
             L1 eq_refl H).
  reflexivity.
Qed.

Lemma str_to_uuid_result_ignores_buffer_witness :
  length (replicate 16 0) = kStaticSize
  /\ length (replicate 16 255) = kStaticSize
  /\ str_to_uuid "ABCDEF01-2345-6789-abCD-Ef0123456789" (replicate 16 0)
     = Ok (true, [171; 205; 239; 1; 35; 69; 103; 137;
                  171; 205; 239; 1; 35; 69; 103; 137])
  /\ str_to_uuid "ABCDEF01-2345-6789-abCD-Ef0123456789" (replicate 16 255)
     = Ok (true, [171; 205; 239; 1; 35; 69; 103; 137;
                  171; 205; 239; 1; 35; 69; 103; 137]).
Proof.
  assert (E : str_to_uuid "ABCDEF01-2345-6789-abCD-Ef0123456789"
                (replicate 16 0)
              = Ok (true, [171; 205; 239; 1; 35; 69; 103; 137;
                           171; 205; 239; 1; 35; 69; 103; 137]))
    by (vm_compute; reflexivity).
  split; [reflexivity|]. split; [reflexivity|]. split; [exact E|].
  exact (proj1 (str_to_uuid_result_ignores_buffer
                  "ABCDEF01-2345-6789-abCD-Ef0123456789"
                  (replicate 16 0) (replicate 16 255) _
                  (eq_refl : length (replicate 16 0) = kStaticSize)
                  (eq_refl : length (replicate 16 255) = kStaticSize) E)).
Defined.

Lemma string_lower_at_all s :
  forall k, string_at (string_lower s) k = ascii_lower (string_at s k).
Proof.
  induction s as [|c s IH]; intros k.
  - destruct k; reflexivity.
  - destruct k as [|k]; [reflexivity | apply (IH k)].
Qed.

Lemma ascii_lower_hyphen c :
  Ascii.eqb (ascii_lower c) "-" = Ascii.eqb c "-".
Proof.
  apply eqb_prop. revert c. apply ascii_enum. vm_compute. reflexivity.
Qed.

Lemma decode_byte_string_lower s i :
  decode_byte (string_lower s) i = decode_byte s i.
Proof.
  unfold decode_byte.
  rewrite !string_lower_at_all, ascii_lower_hyphen,
    !from_hexdigit_case_insensitive.
  reflexivity.
Qed.

Lemma decode_from_ext s t fuel :
  (forall i, decode_byte s i = decode_byte t i) ->
  forall i data, decode_from fuel i s data = decode_from fuel i t data.
Proof.
  intros Hext. induction fuel as [|fuel IH]; intros i data; [reflexivity|].
  cbn [decode_from]. rewrite Hext. destruct (decode_byte t i); [apply IH | reflexivity].
Qed.

Lemma str_to_uuid_string_lower s out :
  str_to_uuid (string_lower s) out = str_to_uuid s out.
Proof.
  rewrite !str_to_uuid_decode, string_lower_length.
  rewrite (decode_from_ext (string_lower s) s kStaticSize
             (decode_byte_string_lower s)).
  reflexivity.
Qed.

(** X10. Decoding does not see the case of letters: lowering every
    uppercase letter of the input changes neither the flag nor the bytes
    [str_to_uuid] writes, nor what [is_uuid] answers. *)
Theorem str_to_uuid_case_insensitive s out :
  str_to_uuid (string_lower s) out = str_to_uuid s out
  /\ is_uuid (string_lower s) = is_uuid s.
Proof.
  split; [apply str_to_uuid_string_lower|].
  unfold is_uuid, str_to_uuid_or_throw.
  rewrite uuid_t_new_ok. cbn [bind].
  now rewrite str_to_uuid_string_lower.
Qed.

Lemma uuid_to_str_inj v1 v2 :
  uuid_wf v1 -> uuid_wf v2 -> uuid_to_str v1 = uuid_to_str v2 -> v1 = v2.
Proof.
  intros H1 H2 E.
  pose proof (str_to_uuid_uuid_to_str v1 (replicate kStaticSize 0) H1 eq_refl)
    as D1.
  pose proof (str_to_uuid_uuid_to_str v2 (replicate kStaticSize 0) H2 eq_refl)
    as D2.
  rewrite E in D1. congruence.
Qed.

(** X11. Two accepted strings decode to the same identifier exactly when
    they are equal up to the case of their letters. *)
Theorem str_to_uuid_equal_iff_same_lowercase s t out u u' :
  uuid_wf out ->
  str_to_uuid s out = Ok (true, u) ->
  str_to_uuid t out = Ok (true, u') ->
  (u = u' <-> string_lower s = string_lower t).
Proof.
  intros Hwf Hs Ht. pose proof Hwf as [Hlen _].
  pose proof (uuid_to_str_str_to_uuid s out u Hlen Hs) as Es.
  pose proof (uuid_to_str_str_to_uuid t out u' Hlen Ht) as Et.
  split.
  - intros <-. congruence.
  - intros E. rewrite <- (str_to_uuid_string_lower s), E,
      str_to_uuid_string_lower in Hs. congruence.
Qed.

Lemma str_to_uuid_equal_iff_same_lowercase_witness :
  uuid_wf (replicate 16 0)
  /\ str_to_uuid "ABCDEF01-2345-6789-abCD-Ef0123456789" (replicate 16 0)
     = Ok (true, [171; 205; 239; 1; 35; 69; 103; 137;
                  171; 205; 239; 1; 35; 69; 103; 137])
  /\ str_to_uuid "abcdef01-2345-6789-ABCD-EF0123456789" (replicate 16 0)
     = Ok (true, [171; 205; 239; 1; 35; 69; 103; 137;
                  171; 205; 239; 1; 35; 69; 103; 137])
  /\ string_lower "ABCDEF01-2345-6789-abCD-Ef0123456789"
     = string_lower "abcdef01-2345-6789-ABCD-EF0123456789".
Proof.
  assert (H : uuid_wf (replicate 16 0)) by solve_uuid_wf.
  assert (E1 : str_to_uuid "ABCDEF01-2345-6789-abCD-Ef0123456789"
                 (replicate 16 0)
               = Ok (true, [171; 205; 239; 1; 35; 69; 103; 137;
                            171; 205; 239; 1; 35; 69; 103; 137]))
    by (vm_compute; reflexivity).
  assert (E2 : str_to_uuid "abcdef01-2345-6789-ABCD-EF0123456789"
                 (replicate 16 0)
               = Ok (true, [171; 205; 239; 1; 35; 69; 103; 137;
                            171; 205; 239; 1; 35; 69; 103; 137]))
    by (vm_compute; reflexivity).
  split; [exact H|]. split; [exact E1|]. split; [exact E2|].
  exact (proj1 (str_to_uuid_equal_iff_same_lowercase _ _ _ _ _ H E1 E2)
           eq_refl).
Defined.

(** X12. Distinct identifiers have distinct encodings, and every encoding
    is a string [is_uuid] accepts and lowercasing leaves alone. *)
Theorem uuid_to_str_injective v1 v2 :
  uuid_wf v1 -> uuid_wf v2 ->
  (uuid_to_str v1 = uuid_to_str v2 <-> v1 = v2)
  /\ is_uuid (uuid_to_str v1) = Ok true
  /\ string_lower (uuid_to_str v1) = uuid_to_str v1.
Proof.
  intros H1 H2. split; [|split].
  - split; [apply uuid_to_str_inj; assumption | intros ->; reflexivity].
  - unfold is_uuid, str_to_uuid_or_throw. rewrite uuid_t_new_ok. cbn [bind].
    rewrite (str_to_uuid_uuid_to_str v1 (c_str magic_unset_uuid) H1 eq_refl).
    reflexivity.
  - symmetry.
    apply (uuid_to_str_str_to_uuid (uuid_to_str v1) (replicate kStaticSize 0) v1
             eq_refl).
    apply str_to_uuid_uuid_to_str; [exact H1 | reflexivity].
Qed.

Lemma uuid_to_str_injective_witness :
  uuid_wf (replicate 16 0) /\ uuid_wf (replicate 16 255)
  /\ is_uuid (uuid_to_str (replicate 16 0)) = Ok true.
Proof.
  assert (H1 : uuid_wf (replicate 16 0)) by solve_uuid_wf.
  assert (H2 : uuid_wf (replicate 16 255)) by solve_uuid_wf.
  split; [exact H1|]. split; [exact H2|].
  exact (proj1 (proj2 (uuid_to_str_injective _ _ H1 H2))).
Defined.

(** X13. The throwing overload either returns or throws "invalid uuid",
    never anything else: on a well-formed encoding it returns a sixteen-byte
    value whose encoding is the input in lowercase, on any other string it
    throws. *)
Theorem str_to_uuid_or_throw_outcome s :
  if is_canonical_encoding s
  then exists u, str_to_uuid_or_throw s = Ok u
                 /\ uuid_wf u /\ uuid_to_str u = string_lower s
  else str_to_uuid_or_throw s = Throw "invalid uuid".
Proof.
  unfold str_to_uuid_or_throw. rewrite uuid_t_new_ok. cbn [bind].
  destruct (str_to_uuid_flag s (c_str magic_unset_uuid)) as [u E].
  rewrite E. cbn [bind].
  destruct (is_canonical_encoding s); [|reflexivity].
  exists u. split; [reflexivity|].
  assert (Hwf : uuid_wf (c_str magic_unset_uuid)) by solve_uuid_wf.
  split.
  - exact (str_to_uuid_buffer_wf s _ _ _ Hwf E).
  - exact (uuid_to_str_str_to_uuid s _ u (proj1 Hwf) E).
Qed.

(** ** The counter over several calls *)

Lemma increment_from_length i :
  forall carry next, length (increment_from i carry next) = length next.
Proof.
  induction i as [|i IH]; intros carry next; [reflexivity|].
  cbn [increment_from]. destruct carry; [|reflexivity].
  rewrite IH. apply length_insert.
Qed.

Lemma get_and_increment_uuid_n_ok n :
  forall tl,
    length (next_uuid tl) = kStaticSize ->
    get_and_increment_uuid_n n tl
    = Ok (map (fun j => Nat.iter j increment (next_uuid tl)) (seq 0 n),
          mk_thread_locals (next_uuid_initialized tl)
            (Nat.iter n increment (next_uuid tl))).
Proof.
  induction n as [|n IH]; intros tl Hlen.
  - destruct tl. reflexivity.
  - cbn [get_and_increment_uuid_n].
    rewrite (get_and_increment_uuid_ok tl Hlen). cbn [bind].
    rewrite IH
      by (cbn [next_uuid]; unfold increment; rewrite increment_from_length;
          exact Hlen).
    cbn [bind next_uuid next_uuid_initialized seq map Nat.iter].
    rewrite <- seq_shift, map_map.
    do 2 f_equal.
    + f_equal. apply map_ext. intros j. symmetry. apply Nat.iter_succ_r.
    + f_equal. symmetry. apply Nat.iter_succ_r.
Qed.

(** X14. [n] successive calls of [get_and_increment_uuid] on one thread all
    return; the values returned are the counter after 0, 1, ..., [n - 1]
    increments and, up to [2 ^ 128] calls, no two of them are equal. *)
Theorem get_and_increment_uuid_n_distinct n tl :
  uuid_wf (next_uuid tl) -> Z.of_nat n <= 2 ^ 128 ->
  exists rs,
    get_and_increment_uuid_n n tl
    = Ok (rs, mk_thread_locals (next_uuid_initialized tl)
                (Nat.iter n increment (next_uuid tl)))
    /\ rs = map (fun j => Nat.iter j increment (next_uuid tl)) (seq 0 n)
    /\ NoDup rs.
Proof.
  intros Hwf Hn. pose proof Hwf as [Hlen _].
  eexists. split; [apply get_and_increment_uuid_n_ok; exact Hlen|].
  split; [reflexivity|].
  change (NoDup ((fun j => Nat.iter j increment (next_uuid tl)) <$> seq 0 n)).
  apply NoDup_fmap_2_strong; [|apply NoDup_seq].
  intros j k Hj Hk E. apply elem_of_seq in Hj, Hk.
  destruct (Nat.lt_trichotomy j k) as [Hlt|[Heq|Hgt]]; [|exact Heq|].
  - exfalso. revert E. apply increment_iter_distinct; [exact Hwf | lia | lia].
  - exfalso. symmetry in E. revert E.
    apply increment_iter_distinct; [exact Hwf | lia | lia].
Qed.

Lemma get_and_increment_uuid_n_distinct_witness :
  uuid_wf (replicate 16 255) /\ Z.of_nat 3 <= 2 ^ 128
  /\ exists rs,
       get_and_increment_uuid_n 3 (mk_thread_locals true (replicate 16 255))
       = Ok (rs, mk_thread_locals true
                   (Nat.iter 3 increment (replicate 16 255)))
       /\ rs = map (fun j => Nat.iter j increment (replicate 16 255)) (seq 0 3)
       /\ NoDup rs.
Proof.
  assert (H : uuid_wf (replicate 16 255)) by solve_uuid_wf.
  assert (Hn : Z.of_nat 3 <= 2 ^ 128) by (vm_compute; discriminate).
  split; [exact H|]. split; [exact Hn|].
  exact (get_and_increment_uuid_n_distinct 3
           (mk_thread_locals true (replicate 16 255)) H Hn).
Defined.

(** X15. Of two successive calls of [get_and_increment_uuid] the second
    returns the greater value under [operator<], except when the first
    returned sixteen [0xFF] bytes: then the second returns the nil value. *)
Theorem get_and_increment_uuid_ascending tl r1 tl1 r2 tl2 :
  uuid_wf (next_uuid tl) ->
  get_and_increment_uuid tl = Ok (r1, tl1) ->
  get_and_increment_uuid tl1 = Ok (r2, tl2) ->
  r1 <> r2
  /\ (r1 <> replicate kStaticSize 255 -> uuid_lt r1 r2 = true)
  /\ (r1 = replicate kStaticSize 255 ->
      r2 = replicate kStaticSize 0 /\ uuid_lt r2 r1 = true).
Proof.
  intros Hwf H1 H2. pose proof Hwf as [Hlen Hb].
  rewrite (get_and_increment_uuid_ok tl Hlen) in H1.
  injection H1 as <- <-.
  destruct (increment_wf _ Hwf) as [Hwf' Hval].
  rewrite get_and_increment_uuid_ok in H2 by apply Hwf'.
  cbn [next_uuid] in H2. injection H2 as <- _.
  pose proof (be_value_bound _ Hb) as B. rewrite Hlen in B.
  change (256 ^ Z.of_nat kStaticSize) with (2 ^ 128) in B.
  assert (Hff : uuid_wf (replicate kStaticSize 255)) by solve_uuid_wf.
  assert (Vff : be_value (replicate kStaticSize 255) = 2 ^ 128 - 1)
    by (vm_compute; reflexivity).
  split; [|split].
  - intros E. rewrite <- E in Hval.
    destruct (Z.eq_dec (be_value (next_uuid tl)) (2 ^ 128 - 1)) as [Hm|Hm].
    + rewrite Hm in Hval.
      replace (2 ^ 128 - 1 + 1) with (2 ^ 128) in Hval by lia.
      rewrite Z.mod_same in Hval by lia. lia.
    + rewrite Z.mod_small in Hval by lia. lia.
  - intros Hne. rewrite (uuid_lt_be_value _ _ Hwf Hwf'). apply Z.ltb_lt.
    assert (be_value (next_uuid tl) <> 2 ^ 128 - 1).
    { intros Hm. apply Hne, be_value_inj;
        [rewrite Hlen; reflexivity | exact Hb | apply Hff | congruence]. }
    rewrite Hval, Z.mod_small by lia. lia.
  - intros E. rewrite E. split; vm_compute; reflexivity.
Qed.

Lemma get_and_increment_uuid_ascending_witness :
  uuid_wf (replicate 16 255)
  /\ get_and_increment_uuid (mk_thread_locals true (replicate 16 255))
     = Ok (replicate 16 255, mk_thread_locals true (replicate 16 0))
  /\ get_and_increment_uuid (mk_thread_locals true (replicate 16 0))
     = Ok (replicate 16 0, mk_thread_locals true (replicate 15 0 ++ [1]))
  /\ replicate 16 255 <> replicate 16 0.
Proof.
  assert (H : uuid_wf (replicate 16 255)) by solve_uuid_wf.
  assert (E1 : get_and_increment_uuid
                 (mk_thread_locals true (replicate 16 255))
               = Ok (replicate 16 255, mk_thread_locals true (replicate 16 0)))
    by (vm_compute; reflexivity).
  assert (E2 : get_and_increment_uuid (mk_thread_locals true (replicate 16 0))
               = Ok (replicate 16 0,
                     mk_thread_locals true (replicate 15 0 ++ [1])))
    by (vm_compute; reflexivity).
  split; [exact H|]. split; [exact E1|]. split; [exact E2|].
  exact (proj1 (get_and_increment_uuid_ascending
                  (mk_thread_locals true (replicate 16 255)) _ _ _ _ H E1 E2)).
Defined.

(** ** The digest step and the generator *)

Lemma be_bytes_uint8 n x : Forall is_uint8 (SHA1.be_bytes n x).
Proof.
  induction n as [|n IH]; cbn [SHA1.be_bytes]; constructor; [|exact IH].
  unfold is_uint8. apply Z.mod_pos_bound. lia.
Qed.

Lemma sha1_bytes msg : Forall is_uint8 (SHA1.sha1 msg).
Proof.
  unfold SHA1.sha1.
  destruct (fold_left SHA1.compress _ SHA1.init) as [[[[h0 h1] h2] h3] h4].
  repeat (apply Forall_app; split); apply be_bytes_uint8.
Qed.

Lemma hash_uuid_unfold uuid :
  hash_uuid uuid
  = Ok (let ob := SHA1.sha1 (take static_size uuid) in
        let ob :=
          <[6%nat := to_uint8 (Z.lor (Z.land (ob !!! 6%nat) 15) 64)]> ob in
        let ob :=
          <[8%nat := to_uint8 (Z.lor (Z.land (ob !!! 8%nat) 63) 128)]> ob in
        memcpy uuid ob static_size).
Proof. reflexivity. Qed.

Lemma hash_uuid_wf uuid r :
  length uuid = kStaticSize -> hash_uuid uuid = Ok r -> uuid_wf r.
Proof.
  intros Hlen H. rewrite hash_uuid_unfold in H. injection H as <-.
  cbv zeta. unfold memcpy, static_size.
  rewrite drop_ge by lia. rewrite app_nil_r.
  pose proof (sha1_length (take kStaticSize uuid)) as Hl.
  pose proof (sha1_bytes (take kStaticSize uuid)) as Hb.
  split.
  - rewrite length_take, !length_insert, Hl. reflexivity.
  - apply Forall_take.
    repeat (apply Forall_insert;
            [|unfold is_uint8, to_uint8; apply Z.mod_pos_bound; lia]).
    exact Hb.
Qed.

Lemma version_field_not_special r :
  length r = kStaticSize -> Z.land (r !!! 6%nat) 240 = 64 ->
  is_nil r = false /\ is_unset r = false.
Proof.
  intros Hlen H6. split; apply not_true_is_false; intros E.
  - apply (is_nil_true_iff r Hlen) in E. subst r. discriminate H6.
  - apply (is_unset_true_iff r Hlen) in E. subst r. discriminate H6.
Qed.

(** X16. [hash_uuid] turns any sixteen-byte value into a sixteen-byte value
    that is neither nil nor the unset sentinel. *)
Theorem hash_uuid_never_special uuid :
  length uuid = kStaticSize ->
  exists r, hash_uuid uuid = Ok r
    /\ uuid_wf r /\ is_nil r = false /\ is_unset r = false.
Proof.
  intros Hlen. destruct (hash_uuid_fields uuid) as (r & Hr & H6 & _).
  pose proof (hash_uuid_wf uuid r Hlen Hr) as Hwf.
  exists r. split; [exact Hr|]. split; [exact Hwf|].
  apply version_field_not_special; [apply Hwf | exact H6].
Qed.

Lemma hash_uuid_never_special_witness :
  length (replicate 16 0) = kStaticSize
  /\ exists r, hash_uuid (replicate 16 0) = Ok r
       /\ uuid_wf r /\ is_nil r = false /\ is_unset r = false.
Proof.
  split; [reflexivity|].
  exact (hash_uuid_never_special (replicate 16 0) eq_refl).
Defined.

(** The first stage of [generate_uuid], written out. *)
Lemma generate_uuid_init_stage dev tl :
  (if negb (next_uuid_initialized tl) then
     tl0 <- initialize_dev_random_uuid dev tl ;;
     Ok (mk_thread_locals true (next_uuid tl0))
   else Ok tl)
  = if next_uuid_initialized tl then Ok tl
    else match dev with
         | Delivers bytes =>
             if (kStaticSize <=? length bytes)%nat
             then Ok (mk_thread_locals true
                        (take kStaticSize bytes
                         ++ drop kStaticSize (next_uuid tl)))
             else Crash
         | _ => Crash
         end.
Proof.
  destruct (next_uuid_initialized tl); cbn [negb]; [reflexivity|].
  unfold initialize_dev_random_uuid, open_urandom, read_urandom, static_size.
  destruct dev as [| |bytes]; [reflexivity..|].
  cbn [Z.eqb negb guarantee bind].
  destruct (Nat.leb_spec kStaticSize (length bytes)) as [Hle|Hlt].
  - rewrite length_take_le by exact Hle. rewrite Z.eqb_refl.
    cbn [guarantee bind next_uuid]. unfold memcpy.
    rewrite take_ge by (rewrite length_take; lia). reflexivity.
  - rewrite length_take_ge by lia.
    destruct (Z.eqb_spec (Z.of_nat (length bytes)) (Z.of_nat kStaticSize));
      [lia | reflexivity].
Qed.

Lemma generate_uuid_unfold dev tl :
  generate_uuid dev tl
  = (tl1 <- (if next_uuid_initialized tl then Ok tl
             else match dev with
                  | Delivers bytes =>
                      if (kStaticSize <=? length bytes)%nat
                      then Ok (mk_thread_locals true
                                 (take kStaticSize bytes
                                  ++ drop kStaticSize (next_uuid tl)))
                      else Crash
                  | _ => Crash
                  end) ;;
     p <- get_and_increment_uuid tl1 ;;
     let '(result, tl2) := p in
     result <- hash_uuid result ;;
     Ok (result, tl2)).
Proof. unfold generate_uuid. rewrite generate_uuid_init_stage. reflexivity. Qed.

(** X17. [initialize_dev_random_uuid] ends the process unless the device
    opens and delivers all sixteen bytes; when it returns, the counter is
    the first sixteen bytes delivered and the flag is as it was (setting it
    is left to [generate_uuid]). *)
Theorem initialize_dev_random_uuid_outcome dev tl :
  length (next_uuid tl) = kStaticSize ->
  initialize_dev_random_uuid dev tl
  = match dev with
    | Delivers bytes =>
        if (kStaticSize <=? length bytes)%nat
        then Ok (mk_thread_locals (next_uuid_initialized tl)
                   (take kStaticSize bytes))
        else Crash
    | _ => Crash
    end.
Proof.
  intros Hlen.
  unfold initialize_dev_random_uuid, open_urandom, read_urandom, static_size.
  destruct dev as [| |bytes]; [reflexivity..|].
  cbn [Z.eqb negb guarantee bind].
  destruct (Nat.leb_spec kStaticSize (length bytes)) as [Hle|Hlt].
  - rewrite length_take_le by exact Hle. rewrite Z.eqb_refl.
    cbn [guarantee bind]. unfold memcpy.
    rewrite take_ge by (rewrite length_take; lia).
    rewrite drop_ge by lia. now rewrite app_nil_r.
  - rewrite length_take_ge by lia.
    destruct (Z.eqb_spec (Z.of_nat (length bytes)) (Z.of_nat kStaticSize));
      [lia | reflexivity].
Qed.

Lemma initialize_dev_random_uuid_outcome_witness :
  length (next_uuid thread_start) = kStaticSize
  /\ initialize_dev_random_uuid (Delivers (replicate 15 1)) thread_start
     = Crash.
Proof.
  split; [reflexivity|].
  exact (initialize_dev_random_uuid_outcome (Delivers (replicate 15 1))
           thread_start eq_refl).
Defined.

Lemma hash_uuid_value_ok uuid : hash_uuid uuid = Ok (hash_uuid_value uuid).
Proof. unfold hash_uuid_value. rewrite hash_uuid_unfold. reflexivity. Qed.

Lemma generate_uuid_counter dev tl :
  length (next_uuid tl) = kStaticSize ->
  generate_uuid dev tl
  = match counter_for_call dev tl with
    | Some c => Ok (hash_uuid_value c, mk_thread_locals true (increment c))
    | None => Crash
    end.
Proof.
  intros Hlen. rewrite generate_uuid_unfold. unfold counter_for_call.
  destruct (next_uuid_initialized tl) eqn:Ei.
  - cbn [bind]. rewrite (get_and_increment_uuid_ok tl Hlen). cbn [bind].
    rewrite hash_uuid_value_ok, Ei. reflexivity.
  - destruct dev as [| |bytes]; [reflexivity..|].
    destruct (Nat.leb_spec kStaticSize (length bytes)) as [Hle|Hlt];
      [|reflexivity].
    cbn [bind]. rewrite drop_ge by lia. rewrite app_nil_r.
    rewrite get_and_increment_uuid_ok
      by (cbn [next_uuid]; rewrite length_take; lia).
    cbn [bind next_uuid next_uuid_initialized].
    rewrite hash_uuid_value_ok. reflexivity.
Qed.

Lemma counter_for_call_length dev tl c :
  length (next_uuid tl) = kStaticSize ->
  counter_for_call dev tl = Some c -> length c = kStaticSize.
Proof.
  intros Hlen. unfold counter_for_call.
  destruct (next_uuid_initialized tl); [intros [= <-]; exact Hlen|].
  destruct dev as [| |bytes]; try discriminate.
  destruct (Nat.leb_spec kStaticSize (length bytes)); [|discriminate].
  intros [= <-]. rewrite length_take. lia.
Qed.

(** X18. An identifier returned by [generate_uuid] is a sixteen-byte value
    that is neither nil nor unset, and the call leaves the thread
    initialised with a sixteen-byte counter. *)
Theorem generate_uuid_never_special dev tl u tl' :
  length (next_uuid tl) = kStaticSize ->
  generate_uuid dev tl = Ok (u, tl') ->
  uuid_wf u /\ is_nil u = false /\ is_unset u = false
  /\ next_uuid_initialized tl' = true
  /\ length (next_uuid tl') = kStaticSize.
Proof.
  intros Hlen H. rewrite (generate_uuid_counter dev tl Hlen) in H.
  destruct (counter_for_call dev tl) as [c|] eqn:Ec; [|discriminate].
  pose proof (counter_for_call_length dev tl c Hlen Ec) as Hc.
  injection H as <- <-.
  destruct (hash_uuid_fields c) as (r & Hr & H6 & _).
  rewrite hash_uuid_value_ok in Hr. injection Hr as <-.
  pose proof (hash_uuid_wf c _ Hc (hash_uuid_value_ok c)) as Hwf.
  split; [exact Hwf|].
  destruct (version_field_not_special _ (proj1 Hwf) H6) as [Hn Hu].
  split; [exact Hn|]. split; [exact Hu|]. split; [reflexivity|].
  cbn [next_uuid]. unfold increment. rewrite increment_from_length. exact Hc.
Qed.

Lemma generate_uuid_never_special_witness :
  length (next_uuid thread_start) = kStaticSize
  /\ generate_uuid (Delivers (replicate 16 255)) thread_start
     = Ok ([82; 224; 233; 212; 244; 108; 71; 202;
            155; 203; 7; 8; 209; 134; 51; 105],
           mk_thread_locals true (replicate 16 0))
  /\ uuid_wf [82; 224; 233; 212; 244; 108; 71; 202;
              155; 203; 7; 8; 209; 134; 51; 105].
Proof.
  assert (E : generate_uuid (Delivers (replicate 16 255)) thread_start
              = Ok ([82; 224; 233; 212; 244; 108; 71; 202;
                     155; 203; 7; 8; 209; 134; 51; 105],
                    mk_thread_locals true (replicate 16 0)))
    by (vm_compute; reflexivity).
  split; [reflexivity|]. split; [exact E|].
  exact (proj1 (generate_uuid_never_special
                  (Delivers (replicate 16 255)) thread_start _ _
                  (eq_refl : length (next_uuid thread_start) = kStaticSize) E)).
Defined.

(** X19. [generate_uuid] never throws, and it ends the process in exactly
    one situation: the thread is not initialised yet and the device cannot
    be opened, cannot be read, or delivers fewer than sixteen bytes. *)
Theorem generate_uuid_crash_iff dev tl :
  (forall what, generate_uuid dev tl <> Throw what)
  /\ (generate_uuid dev tl = Crash
      <-> next_uuid_initialized tl = false
          /\ forall bytes, dev = Delivers bytes ->
                (length bytes < kStaticSize)%nat).
Proof.
  assert (Hrest : forall tl1,
    exists u tl', (p <- get_and_increment_uuid tl1 ;;
                   let '(result, tl2) := p in
                   result <- hash_uuid result ;; Ok (result, tl2))
                  = Ok (u, tl')).
  { intros tl1. destruct (get_and_increment_uuid_returns tl1) as (r & t & E).
    rewrite E. cbn [bind]. rewrite hash_uuid_value_ok. cbn [bind]. eauto. }
  rewrite generate_uuid_unfold.
  destruct (next_uuid_initialized tl).
  - cbn [bind]. destruct (Hrest tl) as (u & t & ->).
    split; [discriminate|]. split; [discriminate | intros [? _]; discriminate].
  - destruct dev as [| |bytes]; cbn [bind].
    + split; [discriminate|]. split; [|reflexivity].
      intros _. split; [reflexivity | discriminate].
    + split; [discriminate|]. split; [|reflexivity].
      intros _. split; [reflexivity | discriminate].
    + destruct (Nat.leb_spec kStaticSize (length bytes)) as [Hle|Hlt];
        cbn [bind].
      * destruct (Hrest (mk_thread_locals true
                           (take kStaticSize bytes
                            ++ drop kStaticSize (next_uuid tl))))
          as (u & t & ->).
        split; [discriminate|]. split; [discriminate|].
        intros [_ H]. specialize (H bytes eq_refl). lia.
      * split; [discriminate|]. split; [|reflexivity].
        intros _. split; [reflexivity|]. intros b [= <-]. exact Hlt.
Qed.

Lemma generate_uuid_n_ok dev n :
  forall tl,
    next_uuid_initialized tl = true ->
    length (next_uuid tl) = kStaticSize ->
    generate_uuid_n dev n tl
    = Ok (map (fun j => hash_uuid_value (Nat.iter j increment (next_uuid tl)))
            (seq 0 n),
          mk_thread_locals true (Nat.iter n increment (next_uuid tl))).
Proof.
  induction n as [|n IH]; intros tl Hi Hlen.
  - destruct tl as [f c]. cbn in Hi. subst f. reflexivity.
  - cbn [generate_uuid_n].
    rewrite (generate_uuid_counter dev tl Hlen). unfold counter_for_call.
    rewrite Hi. cbn [bind].
    rewrite IH
      by (cbn [next_uuid next_uuid_initialized];
          first [reflexivity
                | unfold increment; rewrite increment_from_length; exact Hlen]).
    cbn [bind next_uuid seq map Nat.iter].
    rewrite <- seq_shift, map_map.
    do 2 f_equal.
    + f_equal. apply map_ext. intros j. f_equal. symmetry.
      apply Nat.iter_succ_r.
    + f_equal. symmetry. apply Nat.iter_succ_r.
Qed.

(** X20. On an initialised thread the device plays no part: however it
    behaves, [n] successive calls of [generate_uuid] all return, the call
    number [j] returning the digest of the counter incremented [j] times,
    and they leave the counter incremented [n] times. *)
Theorem generate_uuid_n_initialised dev n tl :
  next_uuid_initialized tl = true ->
  length (next_uuid tl) = kStaticSize ->
  exists us,
    generate_uuid_n dev n tl
    = Ok (us, mk_thread_locals true (Nat.iter n increment (next_uuid tl)))
    /\ generate_uuid_n OpenFails n tl = generate_uuid_n dev n tl
    /\ length us = n
    /\ forall j u, us !! j = Some u ->
         hash_uuid (Nat.iter j increment (next_uuid tl)) = Ok u.
Proof.
  intros Hi Hlen. eexists.
  split; [apply generate_uuid_n_ok; assumption|].
  split; [now rewrite !generate_uuid_n_ok by assumption|].
  split; [rewrite length_map, length_seq; reflexivity|].
  intros j u Hj.
  change (((fun j => hash_uuid_value (Nat.iter j increment (next_uuid tl)))
             <$> seq 0 n) !! j = Some u) in Hj.
  rewrite list_lookup_fmap in Hj.
  destruct (seq 0 n !! j) as [k|] eqn:Ek; [|discriminate].
  apply lookup_seq in Ek as [-> _]. cbn in Hj. injection Hj as <-.
  apply hash_uuid_value_ok.
Qed.

Lemma generate_uuid_n_initialised_witness :
  next_uuid_initialized (mk_thread_locals true (replicate 16 255)) = true
  /\ length (next_uuid (mk_thread_locals true (replicate 16 255)))
     = kStaticSize
  /\ exists us,
       generate_uuid_n ReadFails 2 (mk_thread_locals true (replicate 16 255))
       = Ok (us, mk_thread_locals true
                   (Nat.iter 2 increment (replicate 16 255)))
       /\ generate_uuid_n OpenFails 2
            (mk_thread_locals true (replicate 16 255))
          = generate_uuid_n ReadFails 2
              (mk_thread_locals true (replicate 16 255))
       /\ length us = 2%nat
       /\ forall j u, us !! j = Some u ->
            hash_uuid (Nat.iter j increment (replicate 16 255)) = Ok u.
Proof.
  split; [reflexivity|]. split; [reflexivity|].
  exact (generate_uuid_n_initialised ReadFails 2
           (mk_thread_locals true (replicate 16 255)) eq_refl eq_refl).
Defined.

(** X21. The device is read once, by the first call on a thread: [n + 1]
    calls starting uninitialised with a device that delivers at least
    sixteen bytes behave as [n + 1] calls on a thread already initialised
    with the first sixteen bytes as its counter, whatever the device does
    there. *)
Theorem generate_uuid_n_seeds_once bytes dev n tl :
  next_uuid_initialized tl = false ->
  length (next_uuid tl) = kStaticSize ->
  (kStaticSize <= length bytes)%nat ->
  generate_uuid_n (Delivers bytes) (S n) tl
  = generate_uuid_n dev (S n)
      (mk_thread_locals true (take kStaticSize bytes)).
Proof.
  intros Hi Hlen Hb. cbn [generate_uuid_n].
  assert (Ht : length (take kStaticSize bytes) = kStaticSize)
    by (rewrite length_take; lia).
  rewrite (generate_uuid_counter (Delivers bytes) tl Hlen).
  rewrite (generate_uuid_counter dev
             (mk_thread_locals true (take kStaticSize bytes)) Ht).
  unfold counter_for_call. rewrite Hi.
  cbn [next_uuid next_uuid_initialized].
  destruct (Nat.leb_spec kStaticSize (length bytes)); [|lia].
  cbn [bind].
  rewrite !generate_uuid_n_ok
    by (cbn [next_uuid next_uuid_initialized];
        first [reflexivity
              | unfold increment; rewrite increment_from_length; exact Ht]).
  reflexivity.
Qed.

Lemma generate_uuid_n_seeds_once_witness :
  next_uuid_initialized thread_start = false
  /\ length (next_uuid thread_start) = kStaticSize
  /\ (kStaticSize <= length (replicate 20 255))%nat
  /\ generate_uuid_n (Delivers (replicate 20 255)) 2 thread_start
     = generate_uuid_n OpenFails 2
         (mk_thread_locals true (take kStaticSize (replicate 20 255))).
Proof.
  assert (Hb : (kStaticSize <= length (replicate 20 255))%nat)
    by (vm_compute; lia).
  split; [reflexivity|]. split; [reflexivity|]. split; [exact Hb|].
  exact (generate_uuid_n_seeds_once (replicate 20 255) OpenFails 1
           thread_start eq_refl eq_refl Hb).
Defined.

(** ** Printing *)

Lemma string_length_append (a b : string) :
  String.length (String.append a b) = (String.length a + String.length b)%nat.
Proof. induction a as [|c a IH]; simpl; [reflexivity | now rewrite IH]. Qed.

Lemma printf_s_no_nul s :
  (forall k, (k < String.length s)%nat -> string_at s k <> Ascii.zero) ->
  printf_s s = s.
Proof.
  induction s as [|c s IH]; intros H; [reflexivity|].
  cbn [printf_s].
  destruct (Ascii.eqb_spec c Ascii.zero) as [->|Hc].
  - exfalso. apply (H 0%nat); [simpl; lia | reflexivity].
  - f_equal. apply IH. intros k Hk. apply (H (S k)). simpl. lia.
Qed.

Lemma uuid_to_str_no_nul v k :
  uuid_wf v -> (k < kStringSize)%nat ->
  string_at (uuid_to_str v) k <> Ascii.zero.
Proof.
  intros Hwf Hk. pose proof (canonical_form_chars v Hwf k Hk) as H.
  destruct (separator_position k).
  - rewrite H. discriminate.
  - intros E. rewrite E in H. discriminate H.
Qed.

(** X22. [debug_print] appends the whole canonical form of an identifier,
    all 36 characters of it, to the text already in the buffer: the [%s]
    conversion is never cut short, since an encoding holds no NUL. *)
Theorem debug_print_appends_encoding buf id :
  uuid_wf id ->
  debug_print buf id = String.append buf (uuid_to_str id)
  /\ String.length (debug_print buf id) = (String.length buf + 36)%nat.
Proof.
  intros Hwf. pose proof Hwf as [Hlen _].
  assert (E : printf_s (uuid_to_str id) = uuid_to_str id).
  { apply printf_s_no_nul. rewrite (uuid_to_str_length id Hlen).
    intros k Hk. apply uuid_to_str_no_nul; assumption. }
  unfold debug_print. rewrite E. split; [reflexivity|].
  rewrite string_length_append, (uuid_to_str_length id Hlen). reflexivity.
Qed.

Lemma debug_print_appends_encoding_witness :
  uuid_wf (replicate 16 0)
  /\ debug_print "id=" (replicate 16 0)
     = "id=00000000-0000-0000-0000-000000000000"%string.
Proof.
  assert (H : uuid_wf (replicate 16 0)) by solve_uuid_wf.
  split; [exact H|].
  exact (proj1 (debug_print_appends_encoding "id=" (replicate 16 0) H)).
Defined.
